(** * The [commits] virtual table of askgit: index planner and cursor

    A shallow embedding of the [git log] virtual table (package [git]:
    [BestIndex], [Filter], [Next], [Eof]) together with the properties
    its specification states about the planner / cursor contract.

    Conventions of the embedding:
    - Go [int] values ([ColumnIndex], [ArgvIndex], the [argv] counter) are
      integers in [Z]; the counter is bounded by the length of the constraint
      slice, so it never reaches the 64-bit boundary;
    - a Go [byte] is a [Z] in [0, 256); the conversion [byte(x)] keeps the low
      eight bits ([byte_of_int]);
    - a Go [string] is a [string]; a slice is a [list];
    - a function returning [(T, error)] returns a [result T];
    - the collaborators of the cursor (repository locator, git plumbing,
      mailmap parser, clock parser, ambient context) are fields of a record of
      functions, and every call to one of them is recorded in a trace. *)

From Stdlib Require Import ZArith Lia Ascii String List Bool.
From stdpp Require Import base list gmap strings.
Import ListNotations.

Local Open Scope string_scope.
Local Open Scope list_scope.
Local Open Scope Z_scope.

(** ** Errors *)

(** The error values the table produces or inspects.  [Wrap], [Wrapf] and
    [Errorf] are the constructors of [github.com/pkg/errors]; [Other] stands
    for any failure of a collaborator that the code does not single out. *)
Inductive error : Type :=
  | SQLITE_CONSTRAINT
  | CorruptInputError
  | EOF
  | ErrObjectNotFound
  | ErrFileNotFound
  | Other (msg : string)
  | Wrap (cause : error) (msg : string)
  | Wrapf (cause : error) (format : string) (args : list string)
  | Errorf (format : string) (args : list string).

Inductive result (A : Type) : Type :=
  | Ok (a : A)
  | Err (e : error).
Arguments Ok {A} a.
Arguments Err {A} e.

Definition is_Ok {A} (r : result A) : bool :=
  match r with Ok _ => true | Err _ => false end.

(** ** Bytes *)

(** [byte(x)] for an [int] [x]: the low eight bits. *)
Definition byte_of_int (x : Z) : Z := x mod 256.

Definition is_byte (b : Z) : Prop := 0 <= b < 256.

(** ** Constraint codec *)

Module Codec.

(** Modelled from the spec: the helpers [enc] and [dec] that [BestIndex] and
    [Filter] call are not part of the available sources.  Section 4.1 of the
    specification leaves the serialisation open (raw bytes, hex or base64) as
    long as decoding inverts encoding; the model is base64 with the standard
    alphabet and [=] padding.  [dec] has the two results its call site shows
    ([bitmap, _ = dec(s)]): the bytes decoded before the first malformed
    quantum, and the error if there was one. *)
Definition encodeStd : list ascii :=
  list_ascii_of_string
    "ABCDEFGHIJKLMNOPQRSTUVWXYZabcdefghijklmnopqrstuvwxyz0123456789+/".

Definition padChar : ascii := "="%char.

Definition b64char (v : Z) : ascii := nth (Z.to_nat v) encodeStd padChar.

Fixpoint index_of (c : ascii) (l : list ascii) (i : Z) : option Z :=
  match l with
  | [] => None
  | x :: l' => if Ascii.eqb c x then Some i else index_of c l' (i + 1)
  end.

Definition b64val (c : ascii) : option Z := index_of c encodeStd 0.

Definition sextet (v : Z) (shift : Z) : ascii :=
  b64char (Z.land (Z.shiftr v shift) 63).

(** Three bytes make a 24-bit group that is written as four characters; a
    final group of one or two bytes is padded. *)
Fixpoint enc_quanta (src : list Z) : list ascii :=
  match src with
  | [] => []
  | [a] =>
      let v := Z.shiftl a 16 in
      [sextet v 18; sextet v 12; padChar; padChar]
  | [a; b] =>
      let v := Z.lor (Z.shiftl a 16) (Z.shiftl b 8) in
      [sextet v 18; sextet v 12; sextet v 6; padChar]
  | a :: b :: c :: rest =>
      let v := Z.lor (Z.lor (Z.shiftl a 16) (Z.shiftl b 8)) c in
      sextet v 18 :: sextet v 12 :: sextet v 6 :: sextet v 0 :: enc_quanta rest
  end.

(** Modelled from the spec: [enc], the encoder of section 4.1 that
    [BestIndex] calls on its bitmap; it is not part of the available
    sources. *)
Definition enc (buf : list Z) : string :=
  string_of_list_ascii (enc_quanta buf).

Definition group (v0 v1 v2 v3 : Z) : Z :=
  Z.lor (Z.lor (Z.lor (Z.shiftl v0 18) (Z.shiftl v1 12)) (Z.shiftl v2 6)) v3.

Definition octet (v : Z) (shift : Z) : Z := byte_of_int (Z.shiftr v shift).

Definition corrupt : list Z * option error := ([], Some CorruptInputError).

Fixpoint dec_quanta (s : list ascii) : list Z * option error :=
  match s with
  | [] => ([], None)
  | c0 :: c1 :: c2 :: c3 :: rest =>
      match b64val c0, b64val c1 with
      | Some v0, Some v1 =>
          if Ascii.eqb c2 padChar then
            if Ascii.eqb c3 padChar && bool_decide (rest = []) then
              ([octet (group v0 v1 0 0) 16], None)
            else corrupt
          else
            match b64val c2 with
            | Some v2 =>
                if Ascii.eqb c3 padChar then
                  if bool_decide (rest = []) then
                    let v := group v0 v1 v2 0 in
                    ([octet v 16; octet v 8], None)
                  else corrupt
                else
                  match b64val c3 with
                  | Some v3 =>
                      let v := group v0 v1 v2 v3 in
                      let '(bs, e) := dec_quanta rest in
                      (octet v 16 :: octet v 8 :: octet v 0 :: bs, e)
                  | None => corrupt
                  end
            | None => corrupt
            end
      | _, _ => corrupt
      end
  | _ => corrupt
  end.

(** Modelled from the spec: [dec], the decoder of section 4.1 that [Filter]
    calls on the index string; it is not part of the available sources. *)
Definition dec (str : string) : list Z * option error :=
  dec_quanta (list_ascii_of_string str).

End Codec.

(** ** The host's virtual-table interface (package [sqlite]) *)

Module sqlite.

(** The comparison operators a constraint can carry. *)
Inductive ConstraintOp : Type :=
  | INDEX_CONSTRAINT_EQ
  | INDEX_CONSTRAINT_GT
  | INDEX_CONSTRAINT_LE
  | INDEX_CONSTRAINT_LT
  | INDEX_CONSTRAINT_GE
  | INDEX_CONSTRAINT_MATCH
  | INDEX_CONSTRAINT_LIKE
  | INDEX_CONSTRAINT_GLOB
  | INDEX_CONSTRAINT_REGEXP
  | INDEX_CONSTRAINT_NE
  | INDEX_CONSTRAINT_ISNOT
  | INDEX_CONSTRAINT_ISNOTNULL
  | INDEX_CONSTRAINT_ISNULL
  | INDEX_CONSTRAINT_IS
  | INDEX_CONSTRAINT_FUNCTION.

Definition op_eqb (a b : ConstraintOp) : bool :=
  match a, b with
  | INDEX_CONSTRAINT_EQ, INDEX_CONSTRAINT_EQ
  | INDEX_CONSTRAINT_GT, INDEX_CONSTRAINT_GT
  | INDEX_CONSTRAINT_LE, INDEX_CONSTRAINT_LE
  | INDEX_CONSTRAINT_LT, INDEX_CONSTRAINT_LT
  | INDEX_CONSTRAINT_GE, INDEX_CONSTRAINT_GE
  | INDEX_CONSTRAINT_MATCH, INDEX_CONSTRAINT_MATCH
  | INDEX_CONSTRAINT_LIKE, INDEX_CONSTRAINT_LIKE
  | INDEX_CONSTRAINT_GLOB, INDEX_CONSTRAINT_GLOB
  | INDEX_CONSTRAINT_REGEXP, INDEX_CONSTRAINT_REGEXP
  | INDEX_CONSTRAINT_NE, INDEX_CONSTRAINT_NE
  | INDEX_CONSTRAINT_ISNOT, INDEX_CONSTRAINT_ISNOT
  | INDEX_CONSTRAINT_ISNOTNULL, INDEX_CONSTRAINT_ISNOTNULL
  | INDEX_CONSTRAINT_ISNULL, INDEX_CONSTRAINT_ISNULL
  | INDEX_CONSTRAINT_IS, INDEX_CONSTRAINT_IS
  | INDEX_CONSTRAINT_FUNCTION, INDEX_CONSTRAINT_FUNCTION => true
  | _, _ => false
  end.

Record IndexConstraint : Type := {
  ColumnIndex : Z;
  Op : ConstraintOp;
  Usable : bool
}.

(** One term of the requested ordering ([sqlite.OrderBy]). *)
Record OrderBy : Type := {
  OrderColumnIndex : Z;
  Desc : bool
}.

Record IndexInfoInput : Type := {
  Constraints : list IndexConstraint;
  OrderBys : list OrderBy
}.

Record ConstraintUsage : Type := {
  ArgvIndex : Z;
  Omit : bool
}.

Definition INDEX_SCAN_UNIQUE : Z := 1.

(** [ConstraintUsage] is a slice of pointers: [None] is the nil entry of a
    constraint the planner left unused.  The numeric fields start at the zero
    value, which tells the host to keep its own estimate; the only value the
    planner ever stores in [EstimatedCost] is the literal [1]. *)
Record IndexInfoOutput : Type := {
  ConstraintUsages : list (option ConstraintUsage);
  IndexString : string;
  IdxFlags : Z;
  OrderByConsumed : bool;
  EstimatedCost : Z;
  EstimatedRows : Z
}.

(** A bound argument value; [Text] extracts it as a string. *)
Record Value : Type := { Text : string }.

End sqlite.

Import sqlite.

(** ** The index planner *)

(** The mutable locals of [BestIndex]: the slot counter, the bitmap under
    construction and the fields of [out] that the loop writes. *)
Record planner : Type := {
  argv : Z;
  bitmap : list Z;
  usage : list (option ConstraintUsage);
  cost : Z;
  rows : Z;
  flags : Z
}.

(** The byte [byte(op<<4|col)] that [set] builds.  Only the low eight bits of
    the [int] survive the conversion, so the 64-bit width of the shift does
    not matter. *)
Definition pack (op col : Z) : Z := byte_of_int (Z.lor (Z.shiftl op 4) col).

(** [set(op, col)]: append [byte(op<<4|col)] to the bitmap. *)
Definition set (op col : Z) (st : planner) : planner :=
  {| argv := argv st;
     bitmap := bitmap st ++ [pack op col];
     usage := usage st; cost := cost st; rows := rows st; flags := flags st |}.

(** [out.ConstraintUsage[i] = &sqlite.ConstraintUsage{...}] *)
Definition set_usage (i : nat) (u : ConstraintUsage) (st : planner) : planner :=
  {| argv := argv st; bitmap := bitmap st;
     usage := <[i := Some u]> (usage st);
     cost := cost st; rows := rows st; flags := flags st |}.

Definition set_argv (n : Z) (st : planner) : planner :=
  {| argv := n; bitmap := bitmap st; usage := usage st;
     cost := cost st; rows := rows st; flags := flags st |}.

(** [out.EstimatedCost, out.EstimatedRows = 1, 1] followed by
    [out.IdxFlags |= sqlite.INDEX_SCAN_UNIQUE]. *)
Definition set_unique (st : planner) : planner :=
  {| argv := argv st; bitmap := bitmap st; usage := usage st;
     cost := 1; rows := 1; flags := Z.lor (flags st) INDEX_SCAN_UNIQUE |}.

(** The [switch] of the loop body, entered with [argv] already incremented. *)
Definition BestIndex_switch (i : nat) (c : IndexConstraint) (st : planner) : planner :=
  let idx := ColumnIndex c in
  if (idx =? 0) && op_eqb (Op c) INDEX_CONSTRAINT_EQ then
    set_unique
      (set_usage i {| ArgvIndex := argv st; Omit := false |} (set 1 idx st))
  else if ((idx =? 9) || (idx =? 10)) && op_eqb (Op c) INDEX_CONSTRAINT_EQ then
    set_usage i {| ArgvIndex := argv st; Omit := true |} (set 1 idx st)
  else if (idx =? 7) && (op_eqb (Op c) INDEX_CONSTRAINT_LT
                         || op_eqb (Op c) INDEX_CONSTRAINT_GT) then
    let st' := if op_eqb (Op c) INDEX_CONSTRAINT_LT then set 2 idx st
               else set 3 idx st in
    set_usage i {| ArgvIndex := argv st; Omit := false |} st'
  else
    set_argv (argv st - 1) st.

(** One iteration of [for i, constraint := range input.Constraints]:
    [Err] is the early [return nil, sqlite.SQLITE_CONSTRAINT]. *)
Definition BestIndex_body (i : nat) (c : IndexConstraint) (st : planner)
  : result planner :=
  let idx := ColumnIndex c in
  if (idx =? 0) && negb (Usable c) then Err SQLITE_CONSTRAINT
  else if (idx =? 9) && negb (Usable c) then Err SQLITE_CONSTRAINT
  else if negb (Usable c) then Ok st
  else Ok (BestIndex_switch i c (set_argv (argv st + 1) st)).

Fixpoint BestIndex_loop (i : nat) (cs : list IndexConstraint) (st : planner)
  : result planner :=
  match cs with
  | [] => Ok st
  | c :: cs' =>
      match BestIndex_body i c st with
      | Ok st' => BestIndex_loop (S i) cs' st'
      | Err e => Err e
      end
  end.

Definition BestIndex_init (input : IndexInfoInput) : planner :=
  {| argv := 0; bitmap := [];
     usage := replicate (length (Constraints input)) None;
     cost := 0; rows := 0; flags := 0 |}.

(** [len(input.OrderBy) == 1 && input.OrderBy[0].ColumnIndex == 7 &&
    input.OrderBy[0].Desc] *)
Definition order_consumed (obs : list OrderBy) : bool :=
  match obs with
  | [o] => (OrderColumnIndex o =? 7) && Desc o
  | _ => false
  end.

Definition BestIndex (input : IndexInfoInput) : result IndexInfoOutput :=
  match BestIndex_loop 0 (Constraints input) (BestIndex_init input) with
  | Err e => Err e
  | Ok st =>
      Ok {| ConstraintUsages := usage st;
            IndexString := Codec.enc (bitmap st);
            IdxFlags := flags st;
            OrderByConsumed := order_consumed (OrderBys input);
            EstimatedCost := cost st;
            EstimatedRows := rows st |}
  end.

(** ** The cursor and its collaborators *)

(** How a method of the cursor ends: normally ([Done]), by returning a
    non-nil error ([Failed]), or in a run-time panic. *)
Inductive outcome (A : Type) : Type :=
  | Done (a : A)
  | Failed (e : error)
  | Panicked.
Arguments Done {A} a.
Arguments Failed {A} e.
Arguments Panicked {A}.

(** The object types of the git plumbing library and of the mailmap
    package; the table only passes them around. *)
Class Git : Type := {
  Repository : Type;
  Hash : Type;
  Commit : Type;
  Tree : Type;
  File : Type;
  MailMap : Type;
  Time : Type
}.

Section Cursor.

Context `{G : Git}.

Inductive LogOrder : Type :=
  | LogOrderDefault
  | LogOrderDFS
  | LogOrderDFSPost
  | LogOrderBSF
  | LogOrderCommitterTime.

Record LogOptions : Type := {
  From : Hash;
  Order : LogOrder;
  Since : option Time;
  Until : option Time
}.

(** A commit iterator is the finite sequence of answers that its successive
    [Next] calls will give; once the sequence is used up every further call
    answers [io.EOF]. *)
Definition CommitIter : Type := list (result Commit).

Definition iter_next (it : CommitIter) : result Commit * CommitIter :=
  match it with
  | [] => (Err EOF, [])
  | r :: rest => (r, rest)
  end.

Definition RFC3339 : string := "2006-01-02T15:04:05Z07:00".

(** What the cursor calls outside of the table.  [GetBool] is the value
    part of [cur.Context.GetBool]; its error is discarded by the caller.
    [Head] is [repo.Head()] followed by [ref.Hash()]. *)
Record Collaborators : Type := {
  GetDefaultRepoFromCtx : result string;
  GetBool : string -> bool;
  Locator_Open : string -> result Repository;
  NewHash : string -> Hash;
  ResolveRevision : Repository -> string -> result Hash;
  Head : Repository -> result Hash;
  CommitObject : Repository -> Hash -> result Commit;
  Commit_Tree : Commit -> result Tree;
  Tree_File : Tree -> string -> result File;
  File_Contents : File -> result string;
  mailmap_Parse : string -> result MailMap;
  time_Parse : string -> string -> result Time;
  Log : Repository -> LogOptions -> result CommitIter
}.

(** [object.NewCommitIter] over [storer.NewEncodedObjectLookupIter]: each
    [Next] looks the next hash of the series up in the object store. *)
Definition NewEncodedObjectLookupIter (W : Collaborators) (r : Repository)
    (series : list Hash) : CommitIter :=
  map (CommitObject W r) series.

(** The calls the cursor makes, in the order it makes them. *)
Inductive event : Type :=
  | EvGetDefaultRepo
  | EvOpen (path : string)
  | EvLookupIter (hash : string)
  | EvResolveRevision (rev : string)
  | EvHead
  | EvGetBool (key : string)
  | EvCommitObject (h : Hash)
  | EvTree
  | EvFile (name : string)
  | EvContents
  | EvMailmapParse (text : string)
  | EvTimeParse (layout value : string)
  | EvLog (opts : LogOptions)
  | EvIterNext.

(** [rev] is the revision name [cur.rev] points to; [mm] is [None] while the
    identity map is the nil (empty) map. *)
Record gitLogCursor : Type := {
  repo : option Repository;
  rev : option string;
  commit : option Commit;
  commits : option CommitIter;
  mm : option MailMap
}.

Definition new_cursor : gitLogCursor :=
  {| repo := None; rev := None; commit := None; commits := None; mm := None |}.

Definition with_repo (r : Repository) (cur : gitLogCursor) : gitLogCursor :=
  {| repo := Some r; rev := rev cur; commit := commit cur;
     commits := commits cur; mm := mm cur |}.

Definition with_rev (name : string) (cur : gitLogCursor) : gitLogCursor :=
  {| repo := repo cur; rev := Some name; commit := commit cur;
     commits := commits cur; mm := mm cur |}.

Definition with_commit (c : option Commit) (cur : gitLogCursor) : gitLogCursor :=
  {| repo := repo cur; rev := rev cur; commit := c;
     commits := commits cur; mm := mm cur |}.

Definition with_commits (it : option CommitIter) (cur : gitLogCursor)
  : gitLogCursor :=
  {| repo := repo cur; rev := rev cur; commit := commit cur;
     commits := it; mm := mm cur |}.

Definition with_mm (m : MailMap) (cur : gitLogCursor) : gitLogCursor :=
  {| repo := repo cur; rev := rev cur; commit := commit cur;
     commits := commits cur; mm := Some m |}.

(** *** The monad of cursor methods

    A method updates the cursor and emits the events of its calls. *)
Definition M (A : Type) : Type :=
  gitLogCursor -> outcome A * gitLogCursor * list event.

Definition ret {A} (a : A) : M A := fun cur => (Done a, cur, []).

Definition fail {A} (e : error) : M A := fun cur => (Failed e, cur, []).

Definition panic {A} : M A := fun cur => (Panicked, cur, []).

Definition bind {A B} (m : M A) (f : A -> M B) : M B :=
  fun cur =>
    let '(o, cur1, t1) := m cur in
    match o with
    | Done a => let '(o2, cur2, t2) := f a cur1 in (o2, cur2, t1 ++ t2)
    | Failed e => (Failed e, cur1, t1)
    | Panicked => (Panicked, cur1, t1)
    end.

Notation "x <- m ;; k" := (bind m (fun x => k))
  (at level 100, m at next level, right associativity).
Notation "m ;; k" := (bind m (fun _ => k))
  (at level 100, right associativity).

Definition emit (ev : event) : M unit := fun cur => (Done tt, cur, [ev]).

Definition modify (f : gitLogCursor -> gitLogCursor) : M unit :=
  fun cur => (Done tt, f cur, []).

(** A call to a collaborator: the raw answer, with its event. *)
Definition call {A} (ev : event) (r : result A) : M (result A) :=
  emit ev ;; ret r.

(** [if x, err = f(); err != nil { return wrap(err) }] *)
Definition try_wrap {A} (ev : event) (r : result A) (wrap : error -> error)
  : M A :=
  x <- call ev r ;;
  match x with
  | Ok a => ret a
  | Err e => fail (wrap e)
  end.

(** Modelled from the spec: the helper [eof] is not part of the available
    sources; section 4.3 of the specification makes end-of-sequence the one
    answer of the iterator that is not an error, so [eof] recognises
    [io.EOF]. *)
Definition eof (err : error) : bool :=
  match err with EOF => true | _ => false end.

Definition is_ErrObjectNotFound (err : error) : bool :=
  match err with ErrObjectNotFound => true | _ => false end.

Definition is_ErrFileNotFound (err : error) : bool :=
  match err with ErrFileNotFound => true | _ => false end.

(** [Next]: [cur.commit] receives what the iterator hands back (nil together
    with an error); calling it before [Filter] has installed an iterator
    dereferences a nil interface. *)
Definition Next : M unit :=
  fun cur =>
    match commits cur with
    | None => (Panicked, cur, [])
    | Some it =>
        let '(r, it') := iter_next it in
        let cur' := with_commits (Some it') cur in
        match r with
        | Ok c => (Done tt, with_commit (Some c) cur', [EvIterNext])
        | Err err =>
            if negb (eof err) && negb (is_ErrObjectNotFound err)
            then (Failed err, with_commit None cur', [EvIterNext])
            else (Done tt, with_commit None cur', [EvIterNext])
        end
    end.

Definition Eof (cur : gitLogCursor) : bool :=
  match commit cur with None => true | Some _ => false end.

(** *** Filter *)

(** The locals [hash, path, refName, start, end] of [Filter]. *)
Record bound : Type := {
  hash : string;
  path : string;
  refName : string;
  start : string;
  end_ : string
}.

Definition no_bound : bound :=
  {| hash := ""; path := ""; refName := ""; start := ""; end_ := "" |}.

(** The [switch b := bitmap[i]; b] of the dispatch loop.  The case labels
    are [0b00010000], [0b00011001], [0b00011010], [0b0100111] and
    [0b0110111]. *)
Definition route (b : Z) (val : Value) (bd : bound) : bound :=
  if b =? 16 then
    {| hash := Text val; path := path bd; refName := refName bd;
       start := start bd; end_ := end_ bd |}
  else if b =? 25 then
    {| hash := hash bd; path := Text val; refName := refName bd;
       start := start bd; end_ := end_ bd |}
  else if b =? 26 then
    {| hash := hash bd; path := path bd; refName := Text val;
       start := start bd; end_ := end_ bd |}
  else if b =? 39 then
    {| hash := hash bd; path := path bd; refName := refName bd;
       start := start bd; end_ := Text val |}
  else if b =? 55 then
    {| hash := hash bd; path := path bd; refName := refName bd;
       start := Text val; end_ := end_ bd |}
  else bd.

(** [for i, val := range values { switch b := bitmap[i]; ... }]: [None] is
    the run-time panic of an index out of range. *)
Fixpoint dispatch (bitmap : list Z) (i : nat) (values : list Value)
    (bd : bound) : option bound :=
  match values with
  | [] => Some bd
  | val :: values' =>
      match bitmap !! i with
      | None => None
      | Some b => dispatch bitmap (S i) values' (route b val bd)
      end
  end.

Variable W : Collaborators.

(** The block that opens the repository. *)
Definition open_repo (bd : bound) : M (string * Repository) :=
  p <- (if String.eqb (path bd) ""
        then try_wrap EvGetDefaultRepo (GetDefaultRepoFromCtx W) (fun e => e)
        else ret (path bd)) ;;
  r <- try_wrap (EvOpen p) (Locator_Open W p)
         (fun e => Wrapf e "failed to open %q" [p]) ;;
  modify (with_repo r) ;;
  ret (p, r).

(** The start point of the scan: the named revision, or the head. *)
Definition resolve_from (r : Repository) (bd : bound) : M Hash :=
  modify (with_rev (refName bd)) ;;
  if negb (String.eqb (refName bd) "") then
    try_wrap (EvResolveRevision (refName bd)) (ResolveRevision W r (refName bd))
      (fun _ => Errorf "failed to resolve %q" [refName bd])
  else
    try_wrap EvHead (Head W r) (fun e => Wrapf e "failed to resolve head" []).

(** The block guarded by [!skipMailmap]; [goto skip_mailmap] leaves it. *)
Definition load_mailmap (r : Repository) (from : Hash) : M unit :=
  emit (EvGetBool "skipMailmap") ;;
  if GetBool W "skipMailmap" then ret tt
  else
      c <- try_wrap (EvCommitObject from) (CommitObject W r from)
             (fun e => Wrapf e "could not lookup commit" []) ;;
      t <- try_wrap EvTree (Commit_Tree W c)
             (fun e => Wrapf e "could not lookup tree" []) ;;
      f <- call (EvFile ".mailmap") (Tree_File W t ".mailmap") ;;
      match f with
      | Err err =>
          if negb (is_ErrFileNotFound err)
          then fail (Wrapf err "could not lookup mailmap file" [])
          else ret tt
      | Ok f =>
          m <- try_wrap EvContents (File_Contents W f)
                 (fun e => Wrapf e "could not retrieve contents of mailmap file" []) ;;
          mm <- try_wrap (EvMailmapParse m) (mailmap_Parse W m)
                  (fun e => Wrapf e "could not parse mailmap file" []) ;;
          modify (with_mm mm)
      end.

(** [if v != "" { if t, err = time.Parse(time.RFC3339, v); err == nil {...} }]:
    the bound to install, if any. *)
Definition parse_bound (v : string) : M (option Time) :=
  if negb (String.eqb v "") then
    t <- call (EvTimeParse RFC3339 v) (time_Parse W RFC3339 v) ;;
    match t with
    | Ok t => ret (Some t)
    | Err _ => ret None
    end
  else ret None.

(** The point lookup: [cur.commits] becomes the iterator over the one
    hash, and the cursor advances. *)
Definition lookup_commit (r : Repository) (h : string) : M unit :=
  emit (EvLookupIter h) ;;
  modify (with_commits
            (Some (NewEncodedObjectLookupIter W r [NewHash W h]))) ;;
  Next.

(** [if cur.commits, err = repo.Log(opts); err != nil {...}] followed by
    [return cur.Next()]. *)
Definition log_commits (r : Repository) (opts : LogOptions) : M unit :=
  it <- call (EvLog opts) (Log W r opts) ;;
  match it with
  | Err e =>
      modify (with_commits None) ;;
      fail (Wrap e "failed to create iterator")
  | Ok it => modify (with_commits (Some it)) ;; Next
  end.

(** [Filter] once the dispatch loop has filled the locals. *)
Definition Filter_bound (bd : bound) : M unit :=
  pr <- open_repo bd ;;
  let r := snd pr in
  if negb (String.eqb (hash bd) "") then lookup_commit r (hash bd)
  else
    from <- resolve_from r bd ;;
    load_mailmap r from ;;
    since <- parse_bound (start bd) ;;
    until <- parse_bound (end_ bd) ;;
    log_commits r {| From := from; Order := LogOrderCommitterTime;
                     Since := since; Until := until |}.

Definition Filter (s : string) (values : list Value) : M unit :=
  let bitmap := fst (Codec.dec s) in
  match dispatch bitmap 0 values no_bound with
  | None => panic
  | Some bd => Filter_bound bd
  end.

End Cursor.


(** ** Row projection: [Column] *)

Module object.
(** [object.Signature]: who, and when. *)
Record Signature (T : Type) : Type := {
  Name : string;
  Email : string;
  When : T
}.
Arguments Name {T} _.
Arguments Email {T} _.
Arguments When {T} _.
End object.

Module mailmap.
(** [mailmap.NameAndEmail] *)
Record NameAndEmail : Type := {
  Name : string;
  Email : string
}.
End mailmap.

(** What [Column] hands to the host through [sqlite.Context]: a text
    ([ResultText]), an integer ([ResultInt]), or nothing at all, which the
    host reads as NULL. *)
Inductive ColumnResult : Type :=
  | ResultText (s : string)
  | ResultInt (n : Z)
  | NoResult.

Section Projector.

Context `{G : Git}.

(** The fields and methods of [object.Commit] that [Column] reads, the
    formatting of a timestamp ([time.Time.Format], layout first), and the
    lookup of the identity map ([mailmap.MailMap.Lookup], whose receiver may
    be the nil map). *)
Record CommitReader : Type := {
  Hash_String : Commit -> string;
  Message : Commit -> string;
  Author : Commit -> object.Signature Time;
  Committer : Commit -> object.Signature Time;
  NumParents : Commit -> Z;
  Format : string -> Time -> string;
  Lookup : option MailMap -> mailmap.NameAndEmail -> mailmap.NameAndEmail
}.

Variable R : CommitReader.

(** [Column]: the two lookups come first and dereference [cur.commit], so a
    cursor without a current commit panics whatever the column; the method
    itself always returns nil. *)
Definition Column (col : Z) (cur : gitLogCursor) : outcome ColumnResult :=
  match commit cur with
  | None => Panicked
  | Some commit =>
      let properCommitterSig :=
        Lookup R (mm cur)
          {| mailmap.Name := object.Name (Committer R commit);
             mailmap.Email := object.Email (Committer R commit) |} in
      let properAuthorSig :=
        Lookup R (mm cur)
          {| mailmap.Name := object.Name (Author R commit);
             mailmap.Email := object.Email (Author R commit) |} in
      Done
        (if col =? 0 then ResultText (Hash_String R commit)
         else if col =? 1 then ResultText (Message R commit)
         else if col =? 2 then ResultText (mailmap.Name properAuthorSig)
         else if col =? 3 then ResultText (mailmap.Email properAuthorSig)
         else if col =? 4 then
           ResultText (Format R RFC3339 (object.When (Author R commit)))
         else if col =? 5 then ResultText (mailmap.Name properCommitterSig)
         else if col =? 6 then ResultText (mailmap.Email properCommitterSig)
         else if col =? 7 then
           ResultText (Format R RFC3339 (object.When (Committer R commit)))
         else if col =? 8 then ResultInt (NumParents R commit)
         else NoResult)
  end.

End Projector.

(** ** The host's row loop *)

Section RowLoop.

Context `{G : Git}.

(** After a [Filter] that returned nil the host reads rows until [Eof]:
    it takes the current row, calls [Next], and stops at the first error.
    [fuel] bounds the number of [Next] calls; [None] means it ran out. *)
Fixpoint scan (fuel : nat) (cur : gitLogCursor)
  : option (list Commit * outcome unit) :=
  match commit cur with
  | None => Some ([], Done tt)
  | Some c =>
      match fuel with
      | O => None
      | S fuel' =>
          let '(o, cur1, _) := Next cur in
          match o with
          | Done _ =>
              match scan fuel' cur1 with
              | Some (cs, o') => Some (c :: cs, o')
              | None => None
              end
          | Failed e => Some ([c], Failed e)
          | Panicked => Some ([c], Panicked)
          end
      end
  end.

End RowLoop.

(** ** Options of the extension (package [tables]) *)

Module tables.

Section Options.

Context `{G : Git}.

(** [services.RepoLocator]: an interface with the one method [Open]; the
    [context.Context] argument carries nothing the model reads. *)
Definition RepoLocator : Type := string -> result Repository.

(** [Options].  [Locator] is an interface value and [Context] a
    [map[string]string]; both are nil ([None]) until an option sets them. *)
Record Options : Type := {
  Locator : option RepoLocator;
  ExtraFunctions : bool;
  Context : option (gmap string string)
}.

(** An [OptionFn] updates the [Options] it is given a pointer to. *)
Definition OptionFn : Type := Options -> Options.

Definition WithExtraFunctions : OptionFn :=
  fun o =>
    {| Locator := Locator o; ExtraFunctions := true; Context := Context o |}.

(** [RepoLocatorFn] adapts a function to [RepoLocator]. *)
Definition RepoLocatorFn : Type := string -> result Repository.

Definition RepoLocatorFn_Open (fn : RepoLocatorFn) : RepoLocator :=
  fun path => fn path.

Definition WithRepoLocator (loc : option RepoLocator) : OptionFn :=
  fun o =>
    {| Locator := loc; ExtraFunctions := ExtraFunctions o;
       Context := Context o |}.

(** [WithContextValue]: the map is made on first use, then written. *)
Definition WithContextValue (key value : string) : OptionFn :=
  fun o =>
    let ctx := match Context o with
               | None => ∅
               | Some m => m
               end in
    {| Locator := Locator o; ExtraFunctions := ExtraFunctions o;
       Context := Some (<[key := value]> ctx) |}.

End Options.

End tables.

(** ** The decision rules of the planner, as the specification words them *)

(** The role a predicate is given by rules 1 to 3 of the planner: [1] for an
    equality on the hash or on one of the two hidden selector columns, [2]
    for an upper and [3] for a lower bound on the committer timestamp; rule
    4 leaves every other predicate, and every unusable one, without a role. *)
Definition role_of (c : IndexConstraint) : option Z :=
  if negb (Usable c) then None
  else
    match Op c with
    | INDEX_CONSTRAINT_EQ =>
        if (ColumnIndex c =? 0) || (ColumnIndex c =? 9) || (ColumnIndex c =? 10)
        then Some 1 else None
    | INDEX_CONSTRAINT_LT => if ColumnIndex c =? 7 then Some 2 else None
    | INDEX_CONSTRAINT_GT => if ColumnIndex c =? 7 then Some 3 else None
    | _ => None
    end.

(** The tag of a predicate: role in the high nibble, column in the low. *)
Definition tag_of (c : IndexConstraint) : option Z :=
  match role_of c with
  | Some role => Some (role * 16 + ColumnIndex c)
  | None => None
  end.

(** The selector columns are the ones whose predicate needs no re-check. *)
Definition omit_of (c : IndexConstraint) : bool :=
  (ColumnIndex c =? 9) || (ColumnIndex c =? 10).

(** A predicate the planner insists on, offered but unusable. *)
Definition required_unusable (c : IndexConstraint) : bool :=
  ((ColumnIndex c =? 0) || (ColumnIndex c =? 9)) && negb (Usable c).

(** A usable equality on the hash column. *)
Definition hash_lookup (c : IndexConstraint) : bool :=
  Usable c && (ColumnIndex c =? 0) && op_eqb (Op c) INDEX_CONSTRAINT_EQ.

(** The usage entries and the tags of a run of predicates, the slots being
    numbered from [n + 1]. *)
Fixpoint plan (n : Z) (cs : list IndexConstraint)
  : list (option ConstraintUsage) * list Z :=
  match cs with
  | [] => ([], [])
  | c :: cs' =>
      match tag_of c with
      | Some t =>
          let '(us, ts) := plan (n + 1) cs' in
          (Some {| ArgvIndex := n + 1; Omit := omit_of c |} :: us, t :: ts)
      | None =>
          let '(us, ts) := plan n cs' in (None :: us, ts)
      end
  end.

(** The argument slots a plan assigns, in the order of the predicates. *)
Definition slots (us : list (option ConstraintUsage)) : list Z :=
  omap (fun u => ArgvIndex <$> u) us.

(** The tag sequence carried by a plan token. *)
Definition tags_of (out : IndexInfoOutput) : list Z :=
  fst (Codec.dec (IndexString out)).

(** The role and the column a tag carries. *)
Definition unpack (b : Z) : Z * Z := (Z.shiftr b 4, Z.land b 15).

(** ** The cursor's strategies, as the specification words them *)

Section CursorRules.

Context `{G : Git}.
Variable W : Collaborators.

(** The calls that identity resolution makes: the lookups that lead to the
    [.mailmap] blob, and its parsing. *)
Definition mailmap_event (ev : event) : bool :=
  match ev with
  | EvCommitObject _ | EvTree | EvFile _ | EvContents | EvMailmapParse _ => true
  | _ => false
  end.

(** The calls that belong to the range / full scan: reference resolution,
    head lookup, identity resolution, parsing of the range bounds and the
    construction of the log iterator. *)
Definition scan_event (ev : event) : bool :=
  match ev with
  | EvResolveRevision _ | EvHead | EvGetBool _ | EvTimeParse _ _ | EvLog _ => true
  | _ => mailmap_event ev
  end.

(** The repository path: the bound one, or the default of the context. *)
Definition repo_path (bd : bound) : result string :=
  if String.eqb (path bd) "" then GetDefaultRepoFromCtx W else Ok (path bd).

(** The start point: an explicit reference name takes precedence over the
    head. *)
Definition start_point (r : Repository) (bd : bound) : result Hash :=
  if String.eqb (refName bd) "" then Head W r
  else ResolveRevision W r (refName bd).

(** A range value as a bound on the traversal: present when the value is a
    timestamp in the interchange format, absent otherwise. *)
Definition bound_time (v : string) : option Time :=
  if String.eqb v "" then None
  else match time_Parse W RFC3339 v with
       | Ok t => Some t
       | Err _ => None
       end.

(** The first advance over a traversal source: end of sequence and "object
    not found" are exhaustion, any other failure is an error. *)
Definition advance_outcome (it : CommitIter) : outcome unit :=
  match fst (iter_next it) with
  | Ok _ => Done tt
  | Err e => if eof e || is_ErrObjectNotFound e then Done tt else Failed e
  end.

Definition advance_commit (it : CommitIter) : option Commit :=
  match fst (iter_next it) with
  | Ok c => Some c
  | Err _ => None
  end.

(** The options of the range / full scan from a start point: committer-time
    order, and the two range values as bounds. *)
Definition scan_options (from : Hash) (bd : bound) : LogOptions :=
  {| From := from; Order := LogOrderCommitterTime;
     Since := bound_time (start bd); Until := bound_time (end_ bd) |}.

(** How the scan ends once its options are known: with the failure to
    create the iterator, or with the first advance over it. *)
Definition scan_outcome (r : Repository) (opts : LogOptions) : outcome unit :=
  match Log W r opts with
  | Ok it => advance_outcome it
  | Err e => Failed (Wrap e "failed to create iterator")
  end.

(** What every log iterator that [Filter] asks for is configured with. *)
Definition log_event_ok (bd : bound) (ev : event) : Prop :=
  match ev with
  | EvLog opts =>
      Order opts = LogOrderCommitterTime /\
      Since opts = bound_time (start bd) /\
      Until opts = bound_time (end_ bd)
  | _ => True
  end.

(** The identity map can be set up: resolution is suppressed, or the start
    commit and its tree can be read and the [.mailmap] blob is either
    missing or well-formed. *)
Definition mailmap_ready (r : Repository) (from : Hash) : Prop :=
  GetBool W "skipMailmap" = true \/
  exists c t,
    CommitObject W r from = Ok c /\ Commit_Tree W c = Ok t /\
    (Tree_File W t ".mailmap" = Err ErrFileNotFound \/
     exists f m mp,
       Tree_File W t ".mailmap" = Ok f /\ File_Contents W f = Ok m /\
       mailmap_Parse W m = Ok mp).

(** The locals with the range start, respectively the range end, absent. *)
Definition without_start (bd : bound) : bound :=
  {| hash := hash bd; path := path bd; refName := refName bd;
     start := ""; end_ := end_ bd |}.

Definition without_end (bd : bound) : bound :=
  {| hash := hash bd; path := path bd; refName := refName bd;
     start := start bd; end_ := "" |}.

(** A computation is [tame] when it never panics, emits only events that
    satisfy [P], and ends normally only with a value that satisfies [R]. *)
Definition tame {A} (P : event -> Prop) (R : A -> Prop) (m : M A) : Prop :=
  forall cur,
    Forall P (snd (m cur)) /\
    match fst (fst (m cur)) with
    | Done a => R a
    | Failed _ => True
    | Panicked => False
    end.

End CursorRules.

(** ** The contract between planner and cursor, predicate by predicate *)

(** What a predicate with the bound value [val] means for the locals of
    [Filter]: an equality on [hash], [repository] or [ref] selects the
    commit, the repository or the reference, a [>] or [<] on
    [committer_when] is the start or the end of the range; any other
    predicate, and any unusable one, means nothing to the cursor. *)
Definition assign (c : IndexConstraint) (val : Value) (bd : bound) : bound :=
  if negb (Usable c) then bd
  else
    match Op c with
    | INDEX_CONSTRAINT_EQ =>
        if ColumnIndex c =? 0 then
          {| hash := Text val; path := path bd; refName := refName bd;
             start := start bd; end_ := end_ bd |}
        else if ColumnIndex c =? 9 then
          {| hash := hash bd; path := Text val; refName := refName bd;
             start := start bd; end_ := end_ bd |}
        else if ColumnIndex c =? 10 then
          {| hash := hash bd; path := path bd; refName := Text val;
             start := start bd; end_ := end_ bd |}
        else bd
    | INDEX_CONSTRAINT_GT =>
        if ColumnIndex c =? 7 then
          {| hash := hash bd; path := path bd; refName := refName bd;
             start := Text val; end_ := end_ bd |}
        else bd
    | INDEX_CONSTRAINT_LT =>
        if ColumnIndex c =? 7 then
          {| hash := hash bd; path := path bd; refName := refName bd;
             start := start bd; end_ := Text val |}
        else bd
    | _ => bd
    end.

(** The predicates of a query taken in order, each with its value. *)
Fixpoint assign_all (cs : list IndexConstraint) (vals : list Value)
    (bd : bound) : bound :=
  match cs, vals with
  | c :: cs', val :: vals' => assign_all cs' vals' (assign c val bd)
  | _, _ => bd
  end.

(** The argument vector the host builds from a plan: the values of the
    predicates that were given an [ArgvIndex], in the order of their
    indexes, which [BestIndex] hands out in the order of the predicates. *)
Fixpoint deliver (us : list (option ConstraintUsage)) (vals : list Value)
  : list Value :=
  match us, vals with
  | Some _ :: us', val :: vals' => val :: deliver us' vals'
  | None :: us', _ :: vals' => deliver us' vals'
  | _, _ => []
  end.

(** A usage entry with its slot moved up by [k]. *)
Definition shift_slot (k : Z) (u : option ConstraintUsage)
  : option ConstraintUsage :=
  match u with
  | Some u => Some {| ArgvIndex := ArgvIndex u + k; Omit := Omit u |}
  | None => None
  end.

Section IteratorRules.

Context `{G : Git}.

(** The commits an iterator hands out before its first failure. *)
Fixpoint leading_commits (it : CommitIter) : list Commit :=
  match it with
  | Ok c :: it' => c :: leading_commits it'
  | _ => []
  end.

(** How a traversal of the iterator ends: cleanly at the end of the
    sequence or at "object not found", with the error at any other
    failure. *)
Fixpoint closing_outcome (it : CommitIter) : outcome unit :=
  match it with
  | [] => Done tt
  | Ok _ :: it' => closing_outcome it'
  | Err e :: _ => if eof e || is_ErrObjectNotFound e then Done tt else Failed e
  end.

(** The identity map of [cur'] is the one of [cur], or one that the
    mailmap parser produced. *)
Definition map_kept_or_parsed (W : Collaborators) (cur cur' : gitLogCursor)
  : Prop :=
  mm cur' = mm cur \/
  exists m mp, mailmap_Parse W m = Ok mp /\ mm cur' = Some mp.

(** A computation [preserves] a relation between cursors when the cursor it
    ends with is related to the one it started from. *)
Definition preserves {A} (I : gitLogCursor -> gitLogCursor -> Prop)
    (m : M A) : Prop :=
  forall cur, I cur (snd (fst (m cur))).

(** The event of resolving the start point of the scan. *)
Definition start_event (bd : bound) : event :=
  if String.eqb (refName bd) "" then EvHead
  else EvResolveRevision (refName bd).

(** The events up to and including the opening of the repository [p]. *)
Definition open_events (bd : bound) (p : string) : list event :=
  (if String.eqb (path bd) "" then [EvGetDefaultRepo] else []) ++ [EvOpen p].

End IteratorRules.

(** ** Sample inputs *)

Definition mk (col : Z) (op : ConstraintOp) (u : bool) : IndexConstraint :=
  {| ColumnIndex := col; Op := op; Usable := u |}.

Definition sample_input : IndexInfoInput :=
  {| Constraints :=
       [ mk 1 INDEX_CONSTRAINT_EQ true;
         mk 9 INDEX_CONSTRAINT_EQ true;
         mk 7 INDEX_CONSTRAINT_GT true;
         mk 10 INDEX_CONSTRAINT_EQ false;
         mk 7 INDEX_CONSTRAINT_LT true ];
     OrderBys := [ {| OrderColumnIndex := 7; Desc := true |} ] |}.


(** An equality on the hidden [ref] column that the host cannot use. *)
Definition ref_unusable_input : IndexInfoInput :=
  {| Constraints := [ mk 10 INDEX_CONSTRAINT_EQ false ]; OrderBys := [] |}.

(** An equality on the hidden [repository] column that the host cannot use. *)
Definition repository_unusable_input : IndexInfoInput :=
  {| Constraints := [ mk 7 INDEX_CONSTRAINT_GT true;
                      mk 9 INDEX_CONSTRAINT_EQ false ];
     OrderBys := [] |}.

(** [WHERE hash = ? AND committer_when > ?] *)
Definition hash_input : IndexInfoInput :=
  {| Constraints := [ mk 0 INDEX_CONSTRAINT_EQ true;
                      mk 7 INDEX_CONSTRAINT_GT true ];
     OrderBys := [ {| OrderColumnIndex := 7; Desc := false |} ] |}.

(** The plans [BestIndex] makes for [sample_input] and [hash_input]. *)
Definition sample_plan : IndexInfoOutput :=
  {| ConstraintUsages :=
       [ None;
         Some {| ArgvIndex := 1; Omit := true |};
         Some {| ArgvIndex := 2; Omit := false |};
         None;
         Some {| ArgvIndex := 3; Omit := false |} ];
     IndexString := "GTcn";
     IdxFlags := 0; OrderByConsumed := true;
     EstimatedCost := 0; EstimatedRows := 0 |}.

Definition hash_plan : IndexInfoOutput :=
  {| ConstraintUsages :=
       [ Some {| ArgvIndex := 1; Omit := false |};
         Some {| ArgvIndex := 2; Omit := false |} ];
     IndexString := "EDc=";
     IdxFlags := 1; OrderByConsumed := false;
     EstimatedCost := 1; EstimatedRows := 1 |}.

(** A repository whose objects are named by strings.  The commit
    ["missing"] does not exist; the tree of ["with-mailmap"] holds a
    malformed [.mailmap], every other tree holds none; one timestamp parses. *)
Definition sample_git : Git :=
  {| Repository := string; Hash := string; Commit := string; Tree := string;
     File := string; MailMap := string; Time := string |}.

Definition sample_world : @Collaborators sample_git :=
  @Build_Collaborators sample_git
    (* GetDefaultRepoFromCtx *) (Ok "/repo")
    (* GetBool *) (fun _ => false)
    (* Locator_Open *) (fun p => Ok p)
    (* NewHash *) (fun h => h)
    (* ResolveRevision *) (fun _ name => Ok name)
    (* Head *) (fun _ => Ok "HEAD")
    (* CommitObject *)
    (fun _ h => if String.eqb h "missing" then Err ErrObjectNotFound else Ok h)
    (* Commit_Tree *) (fun c => Ok c)
    (* Tree_File *)
    (fun t _ =>
       if String.eqb t "with-mailmap" then Ok "<>" else Err ErrFileNotFound)
    (* File_Contents *) (fun f => Ok f)
    (* mailmap_Parse *) (fun _ => Err (Other "malformed mailmap"))
    (* time_Parse *)
    (fun _ v =>
       if String.eqb v "2021-01-01T00:00:00Z" then Ok v
       else Err (Other "cannot parse"))
    (* Log *) (fun _ opts => Ok [Ok (@From sample_git opts)]).

Definition text (s : string) : Value := {| Text := s |}.

(** A cursor whose iterator will answer "object not found". *)
Definition dangling_cursor : @gitLogCursor sample_git :=
  @Build_gitLogCursor sample_git
    (* repo *) (Some "/repo") (* rev *) None (* commit *) (Some "old")
    (* commits *) (Some [Err ErrObjectNotFound]) (* mm *) None.

(** The locals after dispatching a hash, a reference name, and a pair of
    range values. *)
Definition hash_bound : bound :=
  {| hash := "abc"; path := ""; refName := ""; start := ""; end_ := "" |}.

Definition ref_bound : bound :=
  {| hash := ""; path := ""; refName := "with-mailmap"; start := "";
     end_ := "" |}.

Definition range_bound : bound :=
  {| hash := ""; path := ""; refName := ""; start := "garbage";
     end_ := "2021-01-01T00:00:00Z" |}.

Definition range_options : @LogOptions sample_git :=
  @Build_LogOptions sample_git "HEAD" LogOrderCommitterTime None
    (Some "2021-01-01T00:00:00Z").

(** A commit reader over the sample repository, with an identity map that
    maps nobody. *)
Definition sample_reader : @CommitReader sample_git :=
  @Build_CommitReader sample_git
    (* Hash_String *) (fun c => c)
    (* Message *) (fun c => "message of " ++ c)%string
    (* Author *)
    (fun c => {| object.Name := "A"; object.Email := "a@x";
                 object.When := "2020-01-01T00:00:00Z" |})
    (* Committer *)
    (fun c => {| object.Name := "C"; object.Email := "c@x";
                 object.When := "2021-01-01T00:00:00Z" |})
    (* NumParents *) (fun _ => 1)
    (* Format *) (fun _ t => t)
    (* Lookup *) (fun _ who => who).
Example enc_hash_tag : Codec.enc [16] = "EA==".
Proof. reflexivity. Qed.

Example enc_three_tags : Codec.enc [25; 26; 55] = "GRo3".
Proof. reflexivity. Qed.

Example dec_three_tags : Codec.dec "GRo3" = ([25; 26; 55], None).
Proof. reflexivity. Qed.

Example dec_malformed : Codec.dec "GRo3*" = ([25; 26; 55], Some CorruptInputError).
Proof. reflexivity. Qed.

Example BestIndex_sample : BestIndex sample_input = Ok sample_plan.
Proof. reflexivity. Qed.

Example BestIndex_hash : BestIndex hash_input = Ok hash_plan.
Proof. reflexivity. Qed.

Example enc_ref_tag : Codec.enc [26] = "Gg==".
Proof. reflexivity. Qed.

Example enc_range_tags : Codec.enc [55; 39] = "Nyc=".
Proof. reflexivity. Qed.

(** A token that is cut short still yields the bytes in front of the cut;
    [Filter] works with them and ignores the decoder's complaint. *)
Example Filter_malformed_token :
  Codec.dec "EA=" = ([], Some CorruptInputError) /\
  fst (fst (Filter sample_world "EA=" [] new_cursor)) = Done tt /\
  fst (fst (Filter sample_world "EA=" [text "abc"] new_cursor)) = Panicked.
Proof. repeat split; reflexivity. Qed.

Example Filter_hash_lookup :
  Filter sample_world "EA==" [text "abc"] new_cursor =
  (Done tt,
   @Build_gitLogCursor sample_git (Some "/repo") None (Some "abc") (Some [])
     None,
   [EvGetDefaultRepo; EvOpen "/repo"; EvLookupIter "abc"; EvIterNext]).
Proof. reflexivity. Qed.

Example Filter_missing_hash :
  fst (Filter sample_world "EA==" [text "missing"] new_cursor) =
  (Done tt,
   @Build_gitLogCursor sample_git (Some "/repo") None None (Some []) None).
Proof. reflexivity. Qed.

Example repository_unusable_rejected :
  BestIndex repository_unusable_input = Err SQLITE_CONSTRAINT.
Proof. reflexivity. Qed.
(** * Properties *)

(** ** The codec *)

Module CodecFacts.
Import Codec.

(** Or-ing a value below [2^k] into a multiple of [2^k] adds it. *)
Lemma lor_low (h k lo : Z) :
  0 <= k -> 0 <= lo < 2 ^ k -> Z.lor (h * 2 ^ k) lo = h * 2 ^ k + lo.
Proof.
  intros Hk Hlo. symmetry. apply Z.add_nocarry_lor.
  apply Z.bits_inj'. intros n Hn.
  rewrite Z.land_spec, Z.bits_0.
  destruct (Z.lt_ge_cases n k) as [Hlt | Hge].
  - rewrite Z.mul_pow2_bits_low by lia. reflexivity.
  - destruct (Z.eq_dec lo 0) as [-> | Hne].
    + rewrite Z.bits_0. apply andb_false_r.
    + rewrite (Z.bits_above_log2 lo n); [apply andb_false_r | lia |].
      apply Z.log2_lt_pow2; [lia |].
      apply Z.lt_le_trans with (2 ^ k); [lia |].
      apply Z.pow_le_mono_r; lia.
Qed.

Lemma group_sum (v0 v1 v2 v3 : Z) :
  0 <= v0 -> 0 <= v1 < 64 -> 0 <= v2 < 64 -> 0 <= v3 < 64 ->
  group v0 v1 v2 v3 = v0 * 262144 + v1 * 4096 + v2 * 64 + v3.
Proof.
  intros H0 H1 H2 H3. unfold group.
  rewrite !Z.shiftl_mul_pow2 by lia.
  rewrite (lor_low v0 18 (v1 * 2 ^ 12)) by lia.
  replace (v0 * 2 ^ 18 + v1 * 2 ^ 12) with ((v0 * 64 + v1) * 2 ^ 12) by lia.
  rewrite (lor_low _ 12 (v2 * 2 ^ 6)) by lia.
  replace ((v0 * 64 + v1) * 2 ^ 12 + v2 * 2 ^ 6)
    with ((v0 * 4096 + v1 * 64 + v2) * 2 ^ 6) by lia.
  rewrite (lor_low _ 6 v3) by lia. lia.
Qed.

Lemma triple_sum (a b c : Z) :
  is_byte a -> is_byte b -> is_byte c ->
  Z.lor (Z.lor (Z.shiftl a 16) (Z.shiftl b 8)) c = a * 65536 + b * 256 + c.
Proof.
  unfold is_byte. intros Ha Hb Hc.
  rewrite !Z.shiftl_mul_pow2 by lia.
  rewrite (lor_low a 16 (b * 2 ^ 8)) by lia.
  replace (a * 2 ^ 16 + b * 2 ^ 8) with ((a * 256 + b) * 2 ^ 8) by lia.
  rewrite (lor_low _ 8 c) by lia. lia.
Qed.

Lemma pair_sum (a b : Z) :
  is_byte a -> is_byte b ->
  Z.lor (Z.shiftl a 16) (Z.shiftl b 8) = a * 65536 + b * 256.
Proof.
  unfold is_byte. intros Ha Hb.
  rewrite !Z.shiftl_mul_pow2 by lia.
  rewrite (lor_low a 16 (b * 2 ^ 8)) by lia. lia.
Qed.

Lemma six_bits (v s : Z) :
  0 <= s -> Z.land (Z.shiftr v s) 63 = (v / 2 ^ s) mod 64.
Proof.
  intros Hs. rewrite Z.shiftr_div_pow2 by lia.
  change 63 with (Z.ones 6). rewrite Z.land_ones by lia. reflexivity.
Qed.

Lemma octet_div (v s : Z) : 0 <= s -> octet v s = (v / 2 ^ s) mod 256.
Proof.
  intros Hs. unfold octet, byte_of_int. rewrite Z.shiftr_div_pow2 by lia.
  reflexivity.
Qed.

(** The alphabet is a bijection between sextets and its 64 characters, and
    the padding character is none of them. *)
Lemma b64val_b64char (v : Z) :
  0 <= v < 64 ->
  b64val (b64char v) = Some v /\ Ascii.eqb (b64char v) padChar = false.
Proof.
  intros Hv.
  assert (Hin : In v (map Z.of_nat (seq 0 64))).
  { apply in_map_iff. exists (Z.to_nat v). split; [lia |].
    apply in_seq. lia. }
  cbn in Hin.
  repeat (destruct Hin as [<- | Hin]; [split; reflexivity |]).
  destruct Hin.
Qed.

Lemma b64val_sextet (v s : Z) :
  0 <= s -> b64val (sextet v s) = Some ((v / 2 ^ s) mod 64).
Proof.
  intros Hs. unfold sextet. rewrite six_bits by lia.
  apply b64val_b64char. apply Z.mod_pos_bound. lia.
Qed.

Lemma sextet_not_pad (v s : Z) :
  0 <= s -> Ascii.eqb (sextet v s) padChar = false.
Proof.
  intros Hs. unfold sextet. rewrite six_bits by lia.
  apply b64val_b64char. apply Z.mod_pos_bound. lia.
Qed.

(** Induction over a byte string three bytes at a time. *)
Lemma list_ind3 {A} (P : list A -> Prop) :
  P [] -> (forall a, P [a]) -> (forall a b, P [a; b]) ->
  (forall a b c l, P l -> P (a :: b :: c :: l)) ->
  forall l, P l.
Proof.
  intros H0 H1 H2 H3 l.
  assert (Hall : forall n l, (length l <= n)%nat -> P l).
  { clear l. induction n as [| n IH]; intros l Hl.
    - destruct l; [exact H0 | simpl in Hl; lia].
    - destruct l as [| a [| b [| c l]]]; auto.
      apply H3, IH. simpl in Hl. lia. }
  apply (Hall (length l)). lia.
Qed.

Ltac quantum_arith :=
  unfold is_byte in *; Z.div_mod_to_equations; lia.

Lemma dec_enc_quanta (l : list Z) :
  Forall is_byte l -> dec_quanta (enc_quanta l) = (l, None).
Proof.
  induction l as [| a | a b | a b c l IH] using list_ind3; intros Hl.
  - reflexivity.
  - inversion Hl as [| ? ? Ha _]; subst.
    cbn [enc_quanta dec_quanta].
    rewrite !b64val_sextet by lia. rewrite Ascii.eqb_refl. cbn [andb bool_decide].
    rewrite bool_decide_eq_true_2 by reflexivity.
    rewrite group_sum by quantum_arith. rewrite octet_div by lia.
    rewrite Z.shiftl_mul_pow2 by lia.
    f_equal. f_equal. quantum_arith.
  - inversion Hl as [| ? ? Ha Hl']; subst.
    inversion Hl' as [| ? ? Hb _]; subst.
    cbn [enc_quanta dec_quanta].
    rewrite !b64val_sextet by lia. rewrite sextet_not_pad by lia.
    rewrite Ascii.eqb_refl.
    rewrite bool_decide_eq_true_2 by reflexivity.
    rewrite group_sum by quantum_arith. rewrite !octet_div by lia.
    rewrite pair_sum by assumption.
    f_equal. f_equal; [| f_equal]; quantum_arith.
  - inversion Hl as [| ? ? Ha Hl']; subst.
    inversion Hl' as [| ? ? Hb Hl'']; subst.
    inversion Hl'' as [| ? ? Hc Hrest]; subst.
    cbn [enc_quanta dec_quanta].
    rewrite !b64val_sextet by lia. rewrite !sextet_not_pad by lia.
    rewrite IH by assumption.
    rewrite group_sum by quantum_arith. rewrite !octet_div by lia.
    rewrite triple_sum by assumption.
    f_equal. f_equal; [| f_equal; [| f_equal]]; quantum_arith.
Qed.

Lemma dec_enc (buf : list Z) :
  Forall is_byte buf -> dec (enc buf) = (buf, None).
Proof.
  intros Hb. unfold dec, enc.
  rewrite list_ascii_of_string_of_list_ascii. apply dec_enc_quanta, Hb.
Qed.

(** A tag built from a role and a column: the role sits in the high nibble,
    the column in the low one. *)
Lemma pack_nibbles (op col : Z) :
  0 <= op < 16 -> 0 <= col < 16 ->
  pack op col = op * 16 + col /\
  Z.shiftr (pack op col) 4 = op /\ Z.land (pack op col) 15 = col.
Proof.
  intros Hop Hcol. unfold pack, byte_of_int.
  rewrite Z.shiftl_mul_pow2 by lia. rewrite (lor_low op 4 col) by lia.
  rewrite Z.shiftr_div_pow2 by lia.
  change 15 with (Z.ones 4). rewrite Z.land_ones by lia.
  change (2 ^ 4) with 16. Z.div_mod_to_equations. lia.
Qed.

End CodecFacts.

(** ** The index planner *)

Lemma op_eqb_eq (a b : ConstraintOp) : op_eqb a b = true <-> a = b.
Proof. destruct a, b; simpl; split; congruence. Qed.

(** One iteration of the loop, in terms of the decision rules. *)
Lemma BestIndex_body_rules (i : nat) (c : IndexConstraint) (st : planner) :
  BestIndex_body i c st =
  if required_unusable c then Err SQLITE_CONSTRAINT
  else
    Ok match tag_of c with
       | Some t =>
           {| argv := argv st + 1;
              bitmap := bitmap st ++ [t];
              usage := <[i := Some {| ArgvIndex := argv st + 1;
                                      Omit := omit_of c |}]> (usage st);
              cost := if hash_lookup c then 1 else cost st;
              rows := if hash_lookup c then 1 else rows st;
              flags := if hash_lookup c
                       then Z.lor (flags st) INDEX_SCAN_UNIQUE else flags st |}
       | None => st
       end.
Proof.
  destruct c as [col op u]. destruct st as [n bm us co ro fl].
  unfold BestIndex_body, BestIndex_switch, required_unusable, tag_of, role_of,
    hash_lookup, omit_of, set_unique, set_usage, set, set_argv, pack; cbn [ColumnIndex Op Usable
    argv bitmap usage cost rows flags].
  destruct u; cbn [negb andb orb].
  - rewrite !andb_false_r. cbn [orb].
    destruct (Z.eqb_spec col 0) as [-> | H0];
      [destruct op; cbn; rewrite ?Z.add_simpl_r; reflexivity |].
    destruct (Z.eqb_spec col 9) as [-> | H9];
      [destruct op; cbn; rewrite ?Z.add_simpl_r; reflexivity |].
    destruct (Z.eqb_spec col 10) as [-> | H10];
      [destruct op; cbn; rewrite ?Z.add_simpl_r; reflexivity |].
    destruct (Z.eqb_spec col 7) as [-> | H7];
      [destruct op; cbn; rewrite ?Z.add_simpl_r; reflexivity |].
    destruct op; cbn; rewrite ?Z.add_simpl_r; reflexivity.
  - rewrite !andb_true_r.
    destruct (Z.eqb_spec col 0) as [-> | H0]; [reflexivity |].
    destruct (Z.eqb_spec col 9) as [-> | H9]; reflexivity.
Qed.

(** Planning fails exactly on a required predicate that is unusable, and
    always with the constraint error. *)
Lemma BestIndex_loop_result (cs : list IndexConstraint) :
  forall (i : nat) (st : planner),
    match BestIndex_loop i cs st with
    | Err e => e = SQLITE_CONSTRAINT /\ existsb required_unusable cs = true
    | Ok _ => existsb required_unusable cs = false
    end.
Proof.
  induction cs as [| c cs IH]; intros i st; [reflexivity |].
  cbn [BestIndex_loop existsb]. rewrite BestIndex_body_rules.
  destruct (required_unusable c); [split; reflexivity |].
  cbn [orb]. apply IH.
Qed.

(** The loop over a run of predicates whose usage entries are still nil
    appends the tags of the run and fills its entries as [plan] says. *)
Lemma BestIndex_loop_plan (cs : list IndexConstraint) :
  forall (i : nat) (st st' : planner) (pre : list (option ConstraintUsage)),
    usage st = pre ++ replicate (length cs) None ->
    length pre = i ->
    BestIndex_loop i cs st = Ok st' ->
    usage st' = pre ++ fst (plan (argv st) cs) /\
    bitmap st' = bitmap st ++ snd (plan (argv st) cs).
Proof.
  induction cs as [| c cs IH]; intros i st st' pre Hus Hlen Hrun.
  - cbn in *. inversion Hrun; subst. rewrite Hus, !app_nil_r. auto.
  - cbn [BestIndex_loop] in Hrun. rewrite BestIndex_body_rules in Hrun.
    destruct (required_unusable c); [discriminate |].
    cbn [plan length replicate] in *.
    destruct (tag_of c) as [t |].
    + destruct (plan (argv st + 1) cs) as [us ts] eqn:Hplan.
      eapply (IH _ _ _ (pre ++ [Some {| ArgvIndex := argv st + 1;
                                         Omit := omit_of c |}])) in Hrun.
      * cbn [argv bitmap fst snd] in Hrun. rewrite Hplan in Hrun.
        cbn [fst snd] in *. destruct Hrun as [-> ->].
        rewrite <- !app_assoc. auto.
      * cbn [usage]. rewrite Hus.
        rewrite insert_app_r_alt by lia.
        replace (i - length pre)%nat with 0%nat by lia.
        cbn. rewrite <- app_assoc. reflexivity.
      * rewrite length_app. cbn. lia.
    + destruct (plan (argv st) cs) as [us ts] eqn:Hplan.
      eapply (IH _ _ _ (pre ++ [None])) in Hrun.
      * rewrite Hplan in Hrun. cbn [fst snd] in *. destruct Hrun as [-> ->].
        rewrite <- !app_assoc. auto.
      * rewrite Hus, <- app_assoc. reflexivity.
      * rewrite length_app. cbn. lia.
Qed.

(** The point-lookup case is the only one that writes the estimates and the
    flags. *)
Lemma BestIndex_loop_estimates (cs : list IndexConstraint) :
  forall (i : nat) (st st' : planner),
    BestIndex_loop i cs st = Ok st' ->
    if existsb hash_lookup cs
    then cost st' = 1 /\ rows st' = 1 /\
         flags st' = Z.lor (flags st) INDEX_SCAN_UNIQUE
    else cost st' = cost st /\ rows st' = rows st /\ flags st' = flags st.
Proof.
  induction cs as [| c cs IH]; intros i st st' Hrun.
  - cbn in *. inversion Hrun; subst. auto.
  - cbn [BestIndex_loop] in Hrun. rewrite BestIndex_body_rules in Hrun.
    destruct (required_unusable c); [discriminate |].
    apply IH in Hrun. cbn [existsb].
    assert (Hnot : tag_of c = None -> hash_lookup c = false).
    { unfold tag_of, role_of, hash_lookup.
      destruct (Usable c); [| reflexivity]. cbn [negb andb].
      destruct (Z.eqb_spec (ColumnIndex c) 0) as [-> | ?]; [| reflexivity].
      destruct (Op c); cbn; congruence. }
    destruct (tag_of c) as [t |].
    + cbn [cost rows flags] in Hrun.
      destruct (hash_lookup c); cbn [orb].
      * destruct (existsb hash_lookup cs).
        -- destruct Hrun as (-> & -> & ->).
           rewrite <- Z.lor_assoc, Z.lor_diag. auto.
        -- exact Hrun.
      * exact Hrun.
    + rewrite Hnot by reflexivity. exact Hrun.
Qed.

(** *** Facts about [plan] *)

Lemma plan_length (cs : list IndexConstraint) :
  forall n, length (fst (plan n cs)) = length cs.
Proof.
  induction cs as [| c cs IH]; intros n; [reflexivity |].
  cbn [plan]. destruct (tag_of c).
  - specialize (IH (n + 1)). destruct (plan (n + 1) cs). cbn in *. lia.
  - specialize (IH n). destruct (plan n cs). cbn in *. lia.
Qed.

Lemma tag_of_byte (c : IndexConstraint) (t : Z) :
  tag_of c = Some t -> is_byte t.
Proof.
  unfold tag_of, role_of, is_byte. destruct (Usable c); cbn [negb]; [| discriminate].
  destruct (Op c); try discriminate;
    repeat match goal with
           | |- context [Z.eqb ?a ?b] => destruct (Z.eqb_spec a b)
           end; cbn [orb]; intros [= <-]; lia.
Qed.

Lemma plan_bytes (cs : list IndexConstraint) :
  forall n, Forall is_byte (snd (plan n cs)).
Proof.
  induction cs as [| c cs IH]; intros n; [constructor |].
  cbn [plan]. destruct (tag_of c) as [t |] eqn:Ht.
  - specialize (IH (n + 1)). destruct (plan (n + 1) cs). cbn in *.
    constructor; [eapply tag_of_byte; eassumption | assumption].
  - specialize (IH n). destruct (plan n cs). exact IH.
Qed.

(** The slots are numbered consecutively, in the order of the predicates. *)
Lemma plan_slots (cs : list IndexConstraint) :
  forall n,
    slots (fst (plan n cs)) =
    map (fun k => n + Z.of_nat k) (seq 1 (length (snd (plan n cs)))).
Proof.
  induction cs as [| c cs IH]; intros n; [reflexivity |].
  cbn [plan]. destruct (tag_of c) as [t |].
  - specialize (IH (n + 1)). destruct (plan (n + 1) cs) as [us ts].
    cbn [fst snd length seq map] in *.
    change (slots (Some {| ArgvIndex := n + 1; Omit := omit_of c |} :: us))
      with ((n + 1) :: slots us).
    rewrite IH. f_equal; try lia.
    rewrite <- (seq_shift (length ts) 1), map_map.
    apply map_ext. intros k. lia.
  - specialize (IH n). destruct (plan n cs) as [us ts]. exact IH.
Qed.

(** The tag stored for a slot is the tag of the predicate that owns it. *)
Lemma plan_lookup (cs : list IndexConstraint) :
  forall n (i : nat) c u,
    cs !! i = Some c ->
    fst (plan n cs) !! i = Some (Some u) ->
    exists role,
      role_of c = Some role /\
      Omit u = omit_of c /\
      n < ArgvIndex u /\
      snd (plan n cs) !! Z.to_nat (ArgvIndex u - n - 1) =
        Some (role * 16 + ColumnIndex c).
Proof.
  induction cs as [| c0 cs IH]; intros n i c u Hc Hu; [discriminate |].
  cbn [plan] in *. unfold tag_of in *.
  destruct (role_of c0) as [r0 |] eqn:Hr0.
  - specialize (IH (n + 1)). destruct (plan (n + 1) cs) as [us ts].
    cbn [fst snd] in *. destruct i as [| i].
    + cbn in Hc, Hu. inversion Hc; inversion Hu; subst. exists r0.
      cbn [ArgvIndex Omit].
      split; [assumption |]. split; [reflexivity |]. split; [lia |].
      replace (n + 1 - n - 1) with 0 by lia. reflexivity.
    + cbn in Hc, Hu. destruct (IH i c u Hc Hu) as (role & Hr & Ho & Hlt & Hlk).
      exists role.
      split; [assumption |]. split; [assumption |]. split; [lia |].
      replace (Z.to_nat (ArgvIndex u - n - 1))
        with (S (Z.to_nat (ArgvIndex u - (n + 1) - 1))) by lia.
      exact Hlk.
  - specialize (IH n). destruct (plan n cs) as [us ts].
    cbn [fst snd] in *. destruct i as [| i]; [discriminate |].
    cbn in Hc, Hu. exact (IH i c u Hc Hu).
Qed.

(** A predicate whose usage entry stays nil has no role, hence no tag. *)
Lemma plan_unused (cs : list IndexConstraint) :
  forall n (i : nat) c,
    cs !! i = Some c ->
    fst (plan n cs) !! i = Some None ->
    role_of c = None.
Proof.
  induction cs as [| c0 cs IH]; intros n i c Hc Hu; [discriminate |].
  cbn [plan] in *. unfold tag_of in *.
  destruct (role_of c0) as [r0 |] eqn:Hr0.
  - specialize (IH (n + 1)). destruct (plan (n + 1) cs) as [us ts].
    destruct i as [| i]; [discriminate |]. cbn in Hc, Hu. eauto.
  - specialize (IH n). destruct (plan n cs) as [us ts].
    destruct i as [| i]; cbn in Hc, Hu; [congruence | eauto].
Qed.

(** What an accepted constraint set is planned into. *)
Lemma BestIndex_plan (input : IndexInfoInput) (out : IndexInfoOutput) :
  BestIndex input = Ok out ->
  ConstraintUsages out = fst (plan 0 (Constraints input)) /\
  Codec.dec (IndexString out) = (snd (plan 0 (Constraints input)), None).
Proof.
  unfold BestIndex.
  destruct (BestIndex_loop 0 (Constraints input) (BestIndex_init input))
    as [st | e] eqn:Hrun; [| discriminate].
  intros [= <-]. cbn [ConstraintUsages IndexString].
  apply (BestIndex_loop_plan _ _ _ _ []) in Hrun; [| reflexivity | reflexivity].
  cbn [BestIndex_init argv bitmap app] in Hrun. destruct Hrun as [-> ->].
  split; [reflexivity |].
  apply CodecFacts.dec_enc, plan_bytes.
Qed.

(** ** The claims about the planner *)

Lemma role_of_range (c : IndexConstraint) (role : Z) :
  role_of c = Some role -> 0 <= role < 16 /\ 0 <= ColumnIndex c < 16.
Proof.
  unfold role_of. destruct (Usable c); cbn [negb]; [| discriminate].
  destruct (Op c); try discriminate;
    repeat match goal with
           | |- context [Z.eqb ?a ?b] => destruct (Z.eqb_spec a b)
           end; cbn [orb]; intros [= <-]; lia.
Qed.

Lemma required_unusable_In (cs : list IndexConstraint) (c : IndexConstraint) :
  In c cs -> ColumnIndex c = 0 \/ ColumnIndex c = 9 -> Usable c = false ->
  existsb required_unusable cs = true.
Proof.
  intros Hin Hcol Hu. apply existsb_exists. exists c. split; [exact Hin |].
  unfold required_unusable. rewrite Hu.
  destruct Hcol as [-> | ->]; reflexivity.
Qed.

(** The guards of the loop: a predicate on the hash column or on the
    repository column that is offered but unusable makes planning fail with
    the constraint error, and no plan is produced. *)
Lemma hash_or_repository_unusable_fails (input : IndexInfoInput)
    (c : IndexConstraint) :
  In c (Constraints input) ->
  ColumnIndex c = 0 \/ ColumnIndex c = 9 ->
  Usable c = false ->
  BestIndex input = Err SQLITE_CONSTRAINT.
Proof.
  intros Hin Hcol Hu. unfold BestIndex.
  pose proof (BestIndex_loop_result (Constraints input) 0 (BestIndex_init input))
    as Hres.
  destruct (BestIndex_loop 0 (Constraints input) (BestIndex_init input))
    as [st | e].
  - rewrite (required_unusable_In _ c Hin Hcol Hu) in Hres. discriminate.
  - destruct Hres as [-> _]. reflexivity.
Qed.

(** C1: the code departs from the claim on the reference-name column.  The
    switch of [BestIndex] treats the two hidden selector columns alike
    ([idx == 9 || idx == 10]), but only the repository column has the guard
    that rejects an unusable predicate.  An equality on [ref] that is offered
    but unusable is therefore skipped and a plan is produced, the full scan
    with an empty token, where the same predicate on [repository] makes
    planning fail with the constraint error. *)
Theorem C1_ref_unusable_is_planned :
  In (mk 10 INDEX_CONSTRAINT_EQ false) (Constraints ref_unusable_input) /\
  BestIndex ref_unusable_input =
  Ok {| ConstraintUsages := [None]; IndexString := "";
        IdxFlags := 0; OrderByConsumed := false;
        EstimatedCost := 0; EstimatedRows := 0 |} /\
  BestIndex ref_unusable_input <> Err SQLITE_CONSTRAINT /\
  BestIndex {| Constraints := [ mk 9 INDEX_CONSTRAINT_EQ false ];
               OrderBys := [] |} = Err SQLITE_CONSTRAINT /\
  BestIndex {| Constraints := [ mk 0 INDEX_CONSTRAINT_EQ false ];
               OrderBys := [] |} = Err SQLITE_CONSTRAINT.
Proof.
  split; [left; reflexivity |]. split; [reflexivity |].
  split; [discriminate |]. split; reflexivity.
Qed.

(** The token of an accepted plan decodes to its tags, and the slots of the
    plan are numbered after them. *)
Lemma plan_token_slots (input : IndexInfoInput) (out : IndexInfoOutput) :
  BestIndex input = Ok out ->
  snd (Codec.dec (IndexString out)) = None /\
  slots (ConstraintUsages out) =
    map Z.of_nat (seq 1 (length (fst (Codec.dec (IndexString out))))).
Proof.
  intros Hout. destruct (BestIndex_plan _ _ Hout) as [Hus Hdec].
  rewrite Hdec, Hus. cbn [fst snd]. split; [reflexivity |].
  rewrite plan_slots. apply map_ext. intros k. lia.
Qed.

(** C2: for an accepted constraint set the token decodes, without error, to
    as many tags as argument slots were assigned; the slots are numbered
    1, 2, ... in the order of the predicates; a predicate left unused has no
    role, and the tag at the position of a predicate's slot carries the role
    and the column of that predicate. *)
Theorem C2_tags_match_slots (input : IndexInfoInput) (out : IndexInfoOutput) :
  BestIndex input = Ok out ->
  snd (Codec.dec (IndexString out)) = None /\
  length (ConstraintUsages out) = length (Constraints input) /\
  length (tags_of out) = length (slots (ConstraintUsages out)) /\
  slots (ConstraintUsages out) = map Z.of_nat (seq 1 (length (tags_of out))) /\
  (forall (i : nat) c,
      Constraints input !! i = Some c ->
      ConstraintUsages out !! i = Some None ->
      role_of c = None) /\
  (forall (i : nat) c u,
      Constraints input !! i = Some c ->
      ConstraintUsages out !! i = Some (Some u) ->
      exists role t,
        role_of c = Some role /\
        tags_of out !! Z.to_nat (ArgvIndex u - 1) = Some t /\
        unpack t = (role, ColumnIndex c)).
Proof.
  intros Hout. destruct (BestIndex_plan _ _ Hout) as [Hus Hdec].
  unfold tags_of. rewrite Hdec, Hus. cbn [fst snd].
  pose proof (plan_slots (Constraints input) 0) as Hslots.
  assert (Hnum : slots (fst (plan 0 (Constraints input))) =
                 map Z.of_nat (seq 1 (length (snd (plan 0 (Constraints input)))))).
  { rewrite Hslots. apply map_ext. intros k. lia. }
  split; [reflexivity |]. split; [apply plan_length |].
  split; [rewrite Hnum, length_map, length_seq; reflexivity |].
  split; [exact Hnum |]. split.
  - intros i c Hc Hu. exact (plan_unused _ _ _ _ Hc Hu).
  - intros i c u Hc Hu.
    destruct (plan_lookup _ _ _ _ _ Hc Hu) as (role & Hr & _ & _ & Hlk).
    exists role, (role * 16 + ColumnIndex c).
    split; [exact Hr |]. split.
    + rewrite <- Hlk. f_equal. lia.
    + destruct (role_of_range _ _ Hr) as [Hrole Hcol].
      destruct (CodecFacts.pack_nibbles role (ColumnIndex c) Hrole Hcol)
        as (Hp & Hhi & Hlo).
      unfold unpack. rewrite <- Hp, Hhi, Hlo. reflexivity.
Qed.

Lemma C2_tags_match_slots_witness :
  exists t, tags_of sample_plan !! 2%nat = Some t /\ unpack t = (2, 7).
Proof.
  destruct (C2_tags_match_slots sample_input sample_plan eq_refl)
    as (_ & _ & _ & _ & _ & Htag).
  destruct (Htag 4%nat (mk 7 INDEX_CONSTRAINT_LT true)
              {| ArgvIndex := 3; Omit := false |} eq_refl eq_refl)
    as (role & t & Hr & Hlk & Hun).
  exists t. split; [exact Hlk |].
  cbn in Hr. injection Hr as <-. exact Hun.
Defined.

(** C4: the plan declares the ordering consumed exactly when the requested
    ordering is the single term "committer timestamp (column 7),
    descending". *)
Theorem C4_order_by_consumed (input : IndexInfoInput) (out : IndexInfoOutput) :
  BestIndex input = Ok out ->
  (OrderByConsumed out = true <->
   exists o, OrderBys input = [o] /\ OrderColumnIndex o = 7 /\ Desc o = true).
Proof.
  unfold BestIndex.
  destruct (BestIndex_loop 0 (Constraints input) (BestIndex_init input));
    [| discriminate].
  intros [= <-]. cbn [OrderByConsumed]. unfold order_consumed.
  destruct (OrderBys input) as [| o [| o' obs]].
  - split; [discriminate | intros (o & Ho & _); discriminate].
  - split.
    + intros H. apply andb_true_iff in H. destruct H as [H7 Hd].
      exists o. split; [reflexivity |]. split; [lia | exact Hd].
    + intros (o1 & [= <-] & H7 & Hd). rewrite H7, Hd. reflexivity.
  - split; [discriminate | intros (o1 & Ho & _); discriminate].
Qed.

Lemma C4_order_by_consumed_witness :
  exists o, OrderBys sample_input = [o] /\ OrderColumnIndex o = 7 /\ Desc o = true.
Proof.
  apply (C4_order_by_consumed sample_input sample_plan eq_refl). reflexivity.
Defined.

(** C5: a plan for a constraint set with a usable equality on the hash
    column reports cost 1 and 1 row and carries the unique-scan flag; a plan
    for any other constraint set leaves cost, rows and flags at their zero
    values, that is, at the host's defaults. *)
Theorem C5_point_lookup_estimates (input : IndexInfoInput) (out : IndexInfoOutput) :
  BestIndex input = Ok out ->
  ((exists c, In c (Constraints input) /\ Usable c = true /\
              ColumnIndex c = 0 /\ Op c = INDEX_CONSTRAINT_EQ) ->
   EstimatedCost out = 1 /\ EstimatedRows out = 1 /\
   IdxFlags out = INDEX_SCAN_UNIQUE) /\
  (~ (exists c, In c (Constraints input) /\ Usable c = true /\
                ColumnIndex c = 0 /\ Op c = INDEX_CONSTRAINT_EQ) ->
   EstimatedCost out = 0 /\ EstimatedRows out = 0 /\ IdxFlags out = 0).
Proof.
  unfold BestIndex.
  destruct (BestIndex_loop 0 (Constraints input) (BestIndex_init input))
    as [st | e] eqn:Hrun; [| discriminate].
  intros [= <-]. cbn [EstimatedCost EstimatedRows IdxFlags].
  apply BestIndex_loop_estimates in Hrun.
  assert (Hiff : existsb hash_lookup (Constraints input) = true <->
                 exists c, In c (Constraints input) /\ Usable c = true /\
                           ColumnIndex c = 0 /\ Op c = INDEX_CONSTRAINT_EQ).
  { rewrite existsb_exists. split; intros (c & Hin & H); exists c; (split; [exact Hin |]).
    - unfold hash_lookup in H. apply andb_true_iff in H. destruct H as [H Hop].
      apply andb_true_iff in H. destruct H as [Hu H0].
      apply op_eqb_eq in Hop. split; [exact Hu |]. split; [lia | exact Hop].
    - destruct H as (Hu & H0 & Hop). unfold hash_lookup.
      rewrite Hu, H0, Hop. reflexivity. }
  destruct (existsb hash_lookup (Constraints input)); split.
  - intros _. exact Hrun.
  - intros Hno. exfalso. apply Hno, Hiff. reflexivity.
  - intros Hex. apply Hiff in Hex. discriminate.
  - intros _. exact Hrun.
Qed.

Lemma C5_point_lookup_estimates_witness :
  EstimatedCost hash_plan = 1 /\ EstimatedRows hash_plan = 1 /\
  IdxFlags hash_plan = INDEX_SCAN_UNIQUE.
Proof.
  destruct (C5_point_lookup_estimates hash_input hash_plan eq_refl) as [Hyes _].
  apply Hyes. exists (mk 0 INDEX_CONSTRAINT_EQ true).
  split; [left; reflexivity |]. repeat split.
Defined.

(** ** The cursor *)

Lemma dispatch_None (bitmap : list Z) (values : list Value) :
  forall (i : nat) (bd : bound),
    (i <= length bitmap)%nat ->
    (dispatch bitmap i values bd = None <->
     (length bitmap < i + length values)%nat).
Proof.
  induction values as [| val values IH]; intros i bd Hi; cbn [dispatch length].
  - split; [discriminate | lia].
  - destruct (bitmap !! i) as [b |] eqn:Hb.
    + apply lookup_lt_Some in Hb. rewrite IH by lia. lia.
    + apply lookup_ge_None in Hb. split; [lia | reflexivity].
Qed.

Section CursorFacts.

Context `{G : Git}.
Variable W : Collaborators.

(** *** Running a sequence of calls *)

Lemma bind_run {A B} (m : M A) (f : A -> M B) (cur cur1 : gitLogCursor)
    (a : A) (t1 : list event) :
  m cur = (Done a, cur1, t1) ->
  bind m f cur = (let '(o, c, t) := f a cur1 in (o, c, t1 ++ t)).
Proof. intros Hm. unfold bind. rewrite Hm. reflexivity. Qed.

Lemma tame_bind {A B} (P : event -> Prop) (R : A -> Prop) (R' : B -> Prop)
    (m : M A) (f : A -> M B) :
  tame P R m -> (forall a, R a -> tame P R' (f a)) -> tame P R' (bind m f).
Proof.
  intros Hm Hf cur. specialize (Hm cur). unfold bind.
  destruct (m cur) as [[o cur1] t1]. cbn [fst snd] in Hm.
  destruct Hm as [Ht Ho]. destruct o as [a | e |]; cbn [fst snd].
  - specialize (Hf a Ho cur1). destruct (f a cur1) as [[o2 cur2] t2].
    cbn [fst snd] in *. destruct Hf as [Ht2 Ho2].
    split; [apply Forall_app; auto | exact Ho2].
  - auto.
  - destruct Ho.
Qed.

Lemma tame_weaken {A} (P : event -> Prop) (R R' : A -> Prop) (m : M A) :
  tame P R m -> (forall a, R a -> R' a) -> tame P R' m.
Proof.
  intros Hm HR cur. specialize (Hm cur). destruct Hm as [Ht Ho].
  split; [exact Ht |]. destruct (fst (fst (m cur))); auto.
Qed.

Lemma tame_ret {A} (P : event -> Prop) (R : A -> Prop) (a : A) :
  R a -> tame P R (ret a).
Proof. intros Ha cur. split; [constructor | exact Ha]. Qed.

Lemma tame_fail {A} (P : event -> Prop) (R : A -> Prop) (e : error) :
  tame P R (fail e : M A).
Proof. intros cur. split; [constructor | exact I]. Qed.

Lemma tame_emit (P : event -> Prop) (ev : event) :
  P ev -> tame P (fun _ => True) (emit ev).
Proof. intros Hev cur. split; [repeat constructor; exact Hev | exact I]. Qed.

Lemma tame_modify (P : event -> Prop) (g : gitLogCursor -> gitLogCursor) :
  tame P (fun _ => True) (modify g).
Proof. intros cur. split; [constructor | exact I]. Qed.

Lemma tame_call {A} (P : event -> Prop) (ev : event) (r : result A) :
  P ev -> tame P (fun x => x = r) (call ev r).
Proof. intros Hev cur. split; [repeat constructor; exact Hev | reflexivity]. Qed.

Lemma tame_try_wrap {A} (P : event -> Prop) (ev : event) (r : result A)
    (wrap : error -> error) :
  P ev -> tame P (fun a => r = Ok a) (try_wrap ev r wrap).
Proof.
  intros Hev cur. unfold try_wrap, call, emit, bind, ret, fail.
  destruct r; cbn; (split; [repeat constructor; exact Hev | auto]).
Qed.

(** Installing an iterator and advancing emits one [EvIterNext]. *)
Lemma tame_install_Next (P : event -> Prop) (it : CommitIter) :
  P EvIterNext ->
  tame P (fun _ => True)
    (bind (modify (with_commits (Some it))) (fun _ => Next)).
Proof.
  intros Hev cur. unfold bind, modify, Next, iter_next. cbn.
  destruct it as [| [c | e] it]; cbn;
    try (split; [repeat constructor; exact Hev | exact I]);
    destruct (negb (eof _) && negb (is_ErrObjectNotFound _)); cbn;
    (split; [repeat constructor; exact Hev | exact I]).
Qed.


Ltac tame_prim :=
  lazymatch goal with
  | |- tame _ _ (ret _) => apply tame_ret
  | |- tame _ _ (fail _) => apply tame_fail
  | |- tame _ _ (emit _) => apply tame_emit
  | |- tame _ _ (modify _) => apply tame_modify
  | |- tame _ _ (call _ _) => apply tame_call
  | |- tame _ _ (try_wrap _ _ _) => apply tame_try_wrap
  end.

Ltac tame_step :=
  lazymatch goal with
  | |- tame _ _ (bind (modify (with_commits (Some _))) (fun _ => Next)) =>
      apply tame_install_Next
  | |- tame _ _ (bind _ _) =>
      eapply (tame_bind _ (fun _ => True)); [| intros ? _]
  | |- tame _ _ (if ?b then _ else _) => destruct b eqn:?
  | |- tame _ _ (match ?x with _ => _ end) => destruct x eqn:?
  | |- tame _ _ _ =>
      first [ tame_prim | eapply tame_weaken; [tame_prim | intros ? _] ]
  end.

(** *** The stages of [Filter], one at a time *)

Lemma open_repo_run (bd : bound) (cur : gitLogCursor) (p : string)
    (r : Repository) :
  repo_path W bd = Ok p ->
  Locator_Open W p = Ok r ->
  open_repo W bd cur =
  (Done (p, r), with_repo r cur,
   (if String.eqb (path bd) "" then [EvGetDefaultRepo] else []) ++ [EvOpen p]).
Proof.
  unfold repo_path, open_repo, try_wrap, call, emit, modify, ret, fail, bind.
  intros Hp Hr.
  destruct (String.eqb (path bd) ""); [rewrite Hp | injection Hp as ->];
    cbn; rewrite Hr; reflexivity.
Qed.

Lemma resolve_from_run (r : Repository) (bd : bound) (cur : gitLogCursor)
    (from : Hash) :
  start_point W r bd = Ok from ->
  resolve_from W r bd cur =
  (Done from, with_rev (refName bd) cur,
   [if String.eqb (refName bd) "" then EvHead
    else EvResolveRevision (refName bd)]).
Proof.
  unfold start_point, resolve_from, try_wrap, call, emit, modify, ret, fail, bind.
  intros Hs.
  destruct (String.eqb (refName bd) ""); cbn; rewrite Hs; reflexivity.
Qed.

Lemma load_mailmap_skip (r : Repository) (from : Hash) (cur : gitLogCursor) :
  GetBool W "skipMailmap" = true ->
  load_mailmap W r from cur = (Done tt, cur, [EvGetBool "skipMailmap"]).
Proof.
  intros Hs. unfold load_mailmap, emit, ret, bind. rewrite Hs. reflexivity.
Qed.

Lemma load_mailmap_missing (r : Repository) (from : Hash) (cur : gitLogCursor)
    (c : Commit) (t : Tree) :
  GetBool W "skipMailmap" = false ->
  CommitObject W r from = Ok c ->
  Commit_Tree W c = Ok t ->
  Tree_File W t ".mailmap" = Err ErrFileNotFound ->
  load_mailmap W r from cur =
  (Done tt, cur,
   [EvGetBool "skipMailmap"; EvCommitObject from; EvTree; EvFile ".mailmap"]).
Proof.
  intros Hs Hc Ht Hf.
  unfold load_mailmap, try_wrap, call, emit, modify, ret, fail, bind.
  rewrite Hs, Hc. cbn. rewrite Ht. cbn. rewrite Hf. reflexivity.
Qed.

Lemma load_mailmap_malformed (r : Repository) (from : Hash)
    (cur : gitLogCursor) (c : Commit) (t : Tree) (f : File) (m : string)
    (e : error) :
  GetBool W "skipMailmap" = false ->
  CommitObject W r from = Ok c ->
  Commit_Tree W c = Ok t ->
  Tree_File W t ".mailmap" = Ok f ->
  File_Contents W f = Ok m ->
  mailmap_Parse W m = Err e ->
  load_mailmap W r from cur =
  (Failed (Wrapf e "could not parse mailmap file" []), cur,
   [EvGetBool "skipMailmap"; EvCommitObject from; EvTree; EvFile ".mailmap";
    EvContents; EvMailmapParse m]).
Proof.
  intros Hs Hc Ht Hf Hm He.
  unfold load_mailmap, try_wrap, call, emit, modify, ret, fail, bind.
  rewrite Hs, Hc. cbn. rewrite Ht. cbn. rewrite Hf. cbn. rewrite Hm. cbn.
  rewrite He. reflexivity.
Qed.

Lemma load_mailmap_parsed (r : Repository) (from : Hash)
    (cur : gitLogCursor) (c : Commit) (t : Tree) (f : File) (m : string)
    (mp : MailMap) :
  GetBool W "skipMailmap" = false ->
  CommitObject W r from = Ok c ->
  Commit_Tree W c = Ok t ->
  Tree_File W t ".mailmap" = Ok f ->
  File_Contents W f = Ok m ->
  mailmap_Parse W m = Ok mp ->
  load_mailmap W r from cur =
  (Done tt, with_mm mp cur,
   [EvGetBool "skipMailmap"; EvCommitObject from; EvTree; EvFile ".mailmap";
    EvContents; EvMailmapParse m]).
Proof.
  intros Hs Hc Ht Hf Hm He.
  unfold load_mailmap, try_wrap, call, emit, modify, ret, fail, bind.
  rewrite Hs, Hc. cbn. rewrite Ht. cbn. rewrite Hf. cbn. rewrite Hm. cbn.
  rewrite He. reflexivity.
Qed.

Lemma parse_bound_run (v : string) (cur : gitLogCursor) :
  parse_bound W v cur =
  (Done (bound_time W v), cur,
   if String.eqb v "" then [] else [EvTimeParse RFC3339 v]).
Proof.
  unfold parse_bound, bound_time, call, emit, ret, bind.
  destruct (String.eqb v ""); cbn; [reflexivity |].
  destruct (time_Parse W RFC3339 v); reflexivity.
Qed.

Lemma install_Next_run (it : CommitIter) (cur : gitLogCursor) :
  bind (modify (with_commits (Some it))) (fun _ => Next) cur =
  (advance_outcome it,
   with_commit (advance_commit it)
     (with_commits (Some (snd (iter_next it))) cur),
   [EvIterNext]).
Proof.
  unfold bind, modify, Next, advance_outcome, advance_commit. cbn.
  destruct (iter_next it) as [[c | e] it']; cbn; [reflexivity |].
  destruct e; reflexivity.
Qed.

Lemma lookup_commit_run (r : Repository) (h : string) (cur : gitLogCursor) :
  let source := NewEncodedObjectLookupIter W r [NewHash W h] in
  lookup_commit W r h cur =
  (advance_outcome source,
   with_commit (advance_commit source) (with_commits (Some []) cur),
   [EvLookupIter h; EvIterNext]).
Proof.
  cbv zeta. unfold lookup_commit.
  unfold bind at 1. unfold emit at 1.
  rewrite install_Next_run. reflexivity.
Qed.

Lemma log_commits_run (r : Repository) (opts : LogOptions)
    (cur : gitLogCursor) :
  log_commits W r opts cur =
  (scan_outcome W r opts,
   match Log W r opts with
   | Ok it => with_commit (advance_commit it)
                (with_commits (Some (snd (iter_next it))) cur)
   | Err _ => with_commits None cur
   end,
   EvLog opts :: match Log W r opts with
                 | Ok _ => [EvIterNext]
                 | Err _ => []
                 end).
Proof.
  unfold log_commits, scan_outcome.
  unfold bind at 1. unfold call, emit, ret, bind at 1. cbn.
  destruct (Log W r opts) as [it | e].
  - rewrite install_Next_run. reflexivity.
  - reflexivity.
Qed.

(** *** [Filter] as a whole *)

Lemma Filter_dispatched (s : string) (values : list Value) (bd : bound)
    (cur : gitLogCursor) :
  dispatch (fst (Codec.dec s)) 0 values no_bound = Some bd ->
  Filter W s values cur = Filter_bound W bd cur.
Proof. intros Hd. unfold Filter. rewrite Hd. reflexivity. Qed.

Lemma tame_parse_bound (P : event -> Prop) (v : string) :
  P (EvTimeParse RFC3339 v) ->
  tame P (fun a => a = bound_time W v) (parse_bound W v).
Proof.
  intros Hev cur. rewrite parse_bound_run. cbn [fst snd].
  split; [| reflexivity].
  destruct (String.eqb v ""); repeat constructor. exact Hev.
Qed.

Lemma tame_load_mailmap (P : event -> Prop) (r : Repository) (from : Hash) :
  (forall ev, mailmap_event ev = true -> P ev) ->
  P (EvGetBool "skipMailmap") ->
  tame P (fun _ => True) (load_mailmap W r from).
Proof.
  intros Hmm Hgb. unfold load_mailmap.
  repeat tame_step; try exact I; try (apply Hmm; reflexivity); exact Hgb.
Qed.

Lemma tame_open_repo (P : event -> Prop) (bd : bound) :
  P EvGetDefaultRepo -> (forall p, P (EvOpen p)) ->
  tame P (fun _ => True) (open_repo W bd).
Proof.
  intros Hd Ho. unfold open_repo.
  repeat tame_step; try exact I; auto.
Qed.

Lemma tame_resolve_from (P : event -> Prop) (r : Repository) (bd : bound) :
  P EvHead -> (forall name, P (EvResolveRevision name)) ->
  tame P (fun _ => True) (resolve_from W r bd).
Proof.
  intros Hh Hr. unfold resolve_from.
  repeat tame_step; try exact I; auto.
Qed.

Lemma tame_log_commits (P : event -> Prop) (r : Repository)
    (opts : LogOptions) :
  P (EvLog opts) -> P EvIterNext ->
  tame P (fun _ => True) (log_commits W r opts).
Proof.
  intros Hl Hn. unfold log_commits.
  repeat tame_step; try exact I; auto.
Qed.

Lemma tame_lookup_commit (P : event -> Prop) (r : Repository) (h : string) :
  P (EvLookupIter h) -> P EvIterNext ->
  tame P (fun _ => True) (lookup_commit W r h).
Proof.
  intros Hl Hn. unfold lookup_commit.
  repeat tame_step; try exact I; auto.
Qed.

(** Every log iterator is asked for in committer-time order and with the
    two range values as its bounds. *)
Lemma Filter_bound_log_events (bd : bound) :
  tame (log_event_ok W bd) (fun _ => True) (Filter_bound W bd).
Proof.
  unfold Filter_bound.
  eapply tame_bind; [apply tame_open_repo; [exact I | intros; exact I] |].
  intros pr _. destruct (negb (String.eqb (hash bd) "")).
  - apply tame_lookup_commit; exact I.
  - eapply tame_bind;
      [apply tame_resolve_from; [exact I | intros; exact I] |].
    intros from _.
    eapply tame_bind;
      [apply tame_load_mailmap;
       [intros ev Hev; destruct ev; try discriminate; exact I | exact I] |].
    intros _ _.
    eapply tame_bind; [apply tame_parse_bound; exact I |].
    intros since_t ->.
    eapply tame_bind; [apply tame_parse_bound; exact I |].
    intros until_t ->.
    apply tame_log_commits; [| exact I].
    cbn. auto.
Qed.

(** With a target hash bound, nothing of the range scan is called. *)
Lemma Filter_bound_lookup_events (bd : bound) :
  hash bd <> "" ->
  tame (fun ev => scan_event ev = false) (fun _ => True) (Filter_bound W bd).
Proof.
  intros Hh. apply String.eqb_neq in Hh.
  unfold Filter_bound. rewrite Hh. cbn [negb].
  eapply tame_bind;
    [apply tame_open_repo; [reflexivity | intros; reflexivity] |].
  intros pr _. apply tame_lookup_commit; reflexivity.
Qed.

Lemma Filter_bound_lookup_run (bd : bound) (cur : gitLogCursor) (p : string)
    (r : Repository) :
  hash bd <> "" ->
  repo_path W bd = Ok p ->
  Locator_Open W p = Ok r ->
  let source := NewEncodedObjectLookupIter W r [NewHash W (hash bd)] in
  Filter_bound W bd cur =
  (advance_outcome source,
   with_commit (advance_commit source)
     (with_commits (Some []) (with_repo r cur)),
   ((if String.eqb (path bd) "" then [EvGetDefaultRepo] else [])
      ++ [EvOpen p]) ++ [EvLookupIter (hash bd); EvIterNext]).
Proof.
  intros Hh Hp Hr. apply String.eqb_neq in Hh. cbv zeta.
  unfold Filter_bound.
  rewrite (bind_run _ _ _ _ _ _ (open_repo_run bd cur p r Hp Hr)).
  cbn [snd]. rewrite Hh. cbn [negb].
  rewrite lookup_commit_run. reflexivity.
Qed.

(** The range scan up to the identity map. *)
Lemma Filter_bound_scan_prefix (bd : bound) (cur : gitLogCursor) (p : string)
    (r : Repository) (from : Hash) :
  hash bd = "" ->
  repo_path W bd = Ok p ->
  Locator_Open W p = Ok r ->
  start_point W r bd = Ok from ->
  let cur1 := with_rev (refName bd) (with_repo r cur) in
  let pre := ((if String.eqb (path bd) "" then [EvGetDefaultRepo] else [])
                ++ [EvOpen p])
               ++ [if String.eqb (refName bd) "" then EvHead
                   else EvResolveRevision (refName bd)] in
  Filter_bound W bd cur =
  match load_mailmap W r from cur1 with
  | (Done _, cur2, tm) =>
      let opts := scan_options W from bd in
      (scan_outcome W r opts,
       match Log W r opts with
       | Ok it => with_commit (advance_commit it)
                    (with_commits (Some (snd (iter_next it))) cur2)
       | Err _ => with_commits None cur2
       end,
       pre ++ tm
         ++ (if String.eqb (start bd) "" then []
             else [EvTimeParse RFC3339 (start bd)])
         ++ (if String.eqb (end_ bd) "" then []
             else [EvTimeParse RFC3339 (end_ bd)])
         ++ EvLog opts :: match Log W r opts with
                          | Ok _ => [EvIterNext]
                          | Err _ => []
                          end)
  | (Failed e, cur2, tm) => (Failed e, cur2, pre ++ tm)
  | (Panicked, cur2, tm) => (Panicked, cur2, pre ++ tm)
  end.
Proof.
  intros Hh Hp Hr Hs. cbv zeta. unfold Filter_bound.
  rewrite (bind_run _ _ _ _ _ _ (open_repo_run bd cur p r Hp Hr)).
  cbn [snd]. rewrite Hh. cbn [String.eqb negb].
  rewrite (bind_run _ _ _ _ _ _ (resolve_from_run r bd _ from Hs)).
  unfold bind at 1.
  destruct (load_mailmap W r from (with_rev (refName bd) (with_repo r cur)))
    as [[[[] | e |] cur2] tm].
  - rewrite (bind_run _ _ _ _ _ _ (parse_bound_run (start bd) cur2)).
    rewrite (bind_run _ _ _ _ _ _ (parse_bound_run (end_ bd) cur2)).
    rewrite log_commits_run. unfold scan_options.
    rewrite <- !app_assoc. reflexivity.
  - rewrite <- !app_assoc. reflexivity.
  - rewrite <- !app_assoc. reflexivity.
Qed.

End CursorFacts.

Section FilterFacts.

Context `{G : Git}.
Variable W : Collaborators.

(** The outcome and the cursor of a sequence do not depend on the events of
    its first part. *)
Lemma fst_let_trace {A} (x : outcome A * gitLogCursor * list event)
    (t1 : list event) :
  fst (let '(o, c, t) := x in (o, c, t1 ++ t)) = fst x.
Proof. destruct x as [[o c] t]. reflexivity. Qed.

Lemma bind_fst_ext {A B} (m : M A) (f f' : A -> M B) (cur : gitLogCursor) :
  (forall a cur1, fst (f a cur1) = fst (f' a cur1)) ->
  fst (bind m f cur) = fst (bind m f' cur).
Proof.
  intros Hf. unfold bind. destruct (m cur) as [[[a | e |] cur1] t1];
    try reflexivity.
  specialize (Hf a cur1).
  destruct (f a cur1) as [[o2 c2] t2], (f' a cur1) as [[o2' c2'] t2'].
  cbn [fst] in *. congruence.
Qed.

(** A range value that does not parse is the same to [Filter] as a range
    value that is absent. *)
Lemma parse_bound_dropped {B} (v : string) (f : option Time -> M B)
    (cur : gitLogCursor) :
  is_Ok (time_Parse W RFC3339 v) = false ->
  fst (bind (parse_bound W "") f cur) = fst (bind (parse_bound W v) f cur).
Proof.
  intros Hv.
  rewrite (bind_run _ _ _ _ _ _ (parse_bound_run W "" cur)).
  rewrite (bind_run _ _ _ _ _ _ (parse_bound_run W v cur)).
  rewrite !fst_let_trace. unfold bound_time.
  destruct (String.eqb v ""); [reflexivity |].
  destruct (time_Parse W RFC3339 v); [discriminate | reflexivity].
Qed.

Lemma Filter_bound_without_start (bd : bound) (cur : gitLogCursor) :
  is_Ok (time_Parse W RFC3339 (start bd)) = false ->
  fst (Filter_bound W (without_start bd) cur) = fst (Filter_bound W bd cur).
Proof.
  intros Hv. unfold Filter_bound, open_repo, resolve_from.
  cbn [without_start hash path refName start end_].
  apply bind_fst_ext. intros pr cur1.
  destruct (negb (String.eqb (hash bd) "")); [reflexivity |].
  apply bind_fst_ext. intros from cur2.
  apply bind_fst_ext. intros _ cur3.
  apply parse_bound_dropped, Hv.
Qed.

Lemma Filter_bound_without_end (bd : bound) (cur : gitLogCursor) :
  is_Ok (time_Parse W RFC3339 (end_ bd)) = false ->
  fst (Filter_bound W (without_end bd) cur) = fst (Filter_bound W bd cur).
Proof.
  intros Hv. unfold Filter_bound, open_repo, resolve_from.
  cbn [without_end hash path refName start end_].
  apply bind_fst_ext. intros pr cur1.
  destruct (negb (String.eqb (hash bd) "")); [reflexivity |].
  apply bind_fst_ext. intros from cur2.
  apply bind_fst_ext. intros _ cur3.
  apply bind_fst_ext. intros since_t cur4.
  apply parse_bound_dropped, Hv.
Qed.

(** When the identity map can be set up, its stage ends normally and
    touches nothing but the map. *)
Lemma load_mailmap_ready (r : Repository) (from : Hash) (cur : gitLogCursor) :
  mailmap_ready W r from ->
  exists cur2 tm, load_mailmap W r from cur = (Done tt, cur2, tm).
Proof.
  intros [Hs | (c & t & Hc & Ht & [Hf | (f & m & mp & Hf & Hm & Hp)])].
  - eexists _, _. apply load_mailmap_skip, Hs.
  - destruct (GetBool W "skipMailmap") eqn:Hs.
    + eexists _, _. apply load_mailmap_skip, Hs.
    + eexists _, _. eapply load_mailmap_missing; eassumption.
  - destruct (GetBool W "skipMailmap") eqn:Hs.
    + eexists _, _. apply load_mailmap_skip, Hs.
    + eexists _, _. eapply load_mailmap_parsed; eassumption.
Qed.

(** Without the skip flag, and with the start commit and its tree at hand,
    the [.mailmap] blob is looked up in that tree. *)
Lemma load_mailmap_attempt (r : Repository) (from : Hash) (cur : gitLogCursor)
    (c : Commit) (t : Tree) :
  GetBool W "skipMailmap" = false ->
  CommitObject W r from = Ok c ->
  Commit_Tree W c = Ok t ->
  In (EvFile ".mailmap") (snd (load_mailmap W r from cur)).
Proof.
  intros Hs Hc Ht.
  unfold load_mailmap, try_wrap, call, emit, modify, ret, fail, bind.
  rewrite Hs, Hc. cbn. rewrite Ht. cbn.
  destruct (Tree_File W t ".mailmap") as [f | e]; cbn.
  - destruct (File_Contents W f) as [m | e]; cbn; [| auto 6].
    destruct (mailmap_Parse W m); cbn; auto 6.
  - destruct (negb (is_ErrFileNotFound e)); cbn; auto 6.
Qed.

End FilterFacts.

(** ** The claims about the codec and the cursor *)




(** Finding an event in a trace made of segments. *)
Ltac find_in :=
  lazymatch goal with
  | |- In ?x (?x :: _) => apply in_eq
  | |- In _ (_ :: _) => apply in_cons; find_in
  | |- In _ (_ ++ _) =>
      apply in_or_app; first [ solve [left; find_in] | solve [right; find_in] ]
  | |- In _ (if ?b then _ else _) => destruct b; find_in
  | |- In _ (match ?b with _ => _ end) => destruct b; find_in
  end.

Section CursorClaims.

Context `{G : Git}.
Variable W : Collaborators.

(** C6: when the dispatch binds a non-empty target hash, [Filter] calls
    nothing of the range scan (no reference resolution, no head lookup, no
    identity map, no parsing of range bounds, no log iterator); and once the
    repository is open, it installs the iterator over that single hash,
    advances it once and returns what that advance returns. *)
Theorem C6_point_lookup (s : string) (values : list Value)
    (cur : gitLogCursor) (bd : bound) :
  dispatch (fst (Codec.dec s)) 0 values no_bound = Some bd ->
  hash bd <> "" ->
  let '(o, cur', t) := Filter W s values cur in
  Forall (fun ev => scan_event ev = false) t /\
  o <> Panicked /\
  forall p r,
    repo_path W bd = Ok p ->
    Locator_Open W p = Ok r ->
    let source := NewEncodedObjectLookupIter W r [NewHash W (hash bd)] in
    source = [CommitObject W r (NewHash W (hash bd))] /\
    o = advance_outcome source /\
    cur' = with_commit (advance_commit source)
             (with_commits (Some []) (with_repo r cur)) /\
    t = ((if String.eqb (path bd) "" then [EvGetDefaultRepo] else [])
           ++ [EvOpen p]) ++ [EvLookupIter (hash bd); EvIterNext].
Proof.
  intros Hd Hh. rewrite (Filter_dispatched W _ _ _ _ Hd).
  pose proof (Filter_bound_lookup_events W bd Hh cur) as [Hev Hout].
  destruct (Filter_bound W bd cur) as [[o cur'] t] eqn:Hrun.
  cbn [fst snd] in *. split; [exact Hev |]. split.
  - intros ->. exact Hout.
  - intros p r Hp Hr. cbv zeta.
    rewrite (Filter_bound_lookup_run W bd cur p r Hh Hp Hr) in Hrun.
    injection Hrun as <- <- <-. repeat split; reflexivity.
Qed.

(** C7: in the range scan, with the skip flag set nothing of the identity
    map is looked up; without it the [.mailmap] blob is looked up in the tree
    of the start commit: a missing blob leaves the identity map as it was and
    the scan goes on to its log iterator, a blob that does not parse makes
    [Filter] return the wrapped parse error before any iterator is made. *)
Theorem C7_mailmap (s : string) (values : list Value) (cur : gitLogCursor)
    (bd : bound) (p : string) (r : Repository) (from : Hash) :
  dispatch (fst (Codec.dec s)) 0 values no_bound = Some bd ->
  hash bd = "" ->
  repo_path W bd = Ok p ->
  Locator_Open W p = Ok r ->
  start_point W r bd = Ok from ->
  let '(o, cur', t) := Filter W s values cur in
  (GetBool W "skipMailmap" = true ->
   Forall (fun ev => mailmap_event ev = false) t /\
   mm cur' = mm cur /\
   o = scan_outcome W r (scan_options W from bd)) /\
  (GetBool W "skipMailmap" = false ->
   forall c tr,
     CommitObject W r from = Ok c ->
     Commit_Tree W c = Ok tr ->
     In (EvFile ".mailmap") t /\
     (Tree_File W tr ".mailmap" = Err ErrFileNotFound ->
      mm cur' = mm cur /\
      In (EvLog (scan_options W from bd)) t /\
      o = scan_outcome W r (scan_options W from bd)) /\
     (forall f m e,
         Tree_File W tr ".mailmap" = Ok f ->
         File_Contents W f = Ok m ->
         mailmap_Parse W m = Err e ->
         o = Failed (Wrapf e "could not parse mailmap file" []) /\
         mm cur' = mm cur /\
         Forall (fun ev => match ev with EvLog _ => False | _ => True end) t)).
Proof.
  intros Hd Hh Hp Hr Hs. rewrite (Filter_dispatched W _ _ _ _ Hd).
  pose proof (Filter_bound_scan_prefix W bd cur p r from Hh Hp Hr Hs) as Hrun.
  cbv zeta in Hrun.
  destruct (Filter_bound W bd cur) as [[o cur'] t].
  split.
  - intros Hskip. rewrite (load_mailmap_skip W r from _ Hskip) in Hrun.
    injection Hrun as -> -> ->. split; [| split].
    + repeat (apply Forall_app; split);
        repeat case_match; repeat constructor.
    + destruct (Log W r (scan_options W from bd)); reflexivity.
    + reflexivity.
  - intros Hskip c tr Hc Ht. split; [| split].
    + pose proof (load_mailmap_attempt W r from
                    (with_rev (refName bd) (with_repo r cur)) c tr Hskip Hc Ht)
        as Hin.
      destruct (load_mailmap W r from (with_rev (refName bd) (with_repo r cur)))
        as [[[[] | e |] cur2] tm]; cbn [snd] in Hin;
        injection Hrun as -> -> ->;
        rewrite !in_app_iff; auto 6.
    + intros Hf.
      rewrite (load_mailmap_missing W r from _ c tr Hskip Hc Ht Hf) in Hrun.
      injection Hrun as -> -> ->. split; [| split].
      * destruct (Log W r (scan_options W from bd)); reflexivity.
      * find_in.
      * reflexivity.
    + intros f m e Hf Hm He.
      rewrite (load_mailmap_malformed W r from _ c tr f m e Hskip Hc Ht Hf Hm He)
        in Hrun.
      injection Hrun as -> -> ->. split; [reflexivity |]. split; [reflexivity |].
      repeat (apply Forall_app; split);
        repeat case_match; repeat constructor.
Qed.

(** C8: the value routed by the greater-than tag is the range start, the
    one routed by the less-than tag the range end; a value that parses as an
    RFC3339 timestamp is a bound, one that does not is no bound; every log
    iterator [Filter] asks for has the start as [Since] and the end as
    [Until]; the range scan reaches that iterator whenever its earlier stages
    succeed; and a value that fails to parse leaves the outcome and the
    cursor of [Filter] as they are with that value absent. *)
Theorem C8_range_bounds (s : string) (values : list Value)
    (cur : gitLogCursor) (bd : bound) :
  dispatch (fst (Codec.dec s)) 0 values no_bound = Some bd ->
  let '(o, cur', t) := Filter W s values cur in
  (forall val bd0,
      start (route (pack 3 7) val bd0) = Text val /\
      end_ (route (pack 2 7) val bd0) = Text val) /\
  (forall v tm,
      v <> "" -> time_Parse W RFC3339 v = Ok tm -> bound_time W v = Some tm) /\
  (forall v e, time_Parse W RFC3339 v = Err e -> bound_time W v = None) /\
  Forall (log_event_ok W bd) t /\
  (forall p r from,
      hash bd = "" ->
      repo_path W bd = Ok p ->
      Locator_Open W p = Ok r ->
      start_point W r bd = Ok from ->
      mailmap_ready W r from ->
      In (EvLog (scan_options W from bd)) t /\
      o = scan_outcome W r (scan_options W from bd)) /\
  (is_Ok (time_Parse W RFC3339 (start bd)) = false ->
   fst (Filter_bound W (without_start bd) cur) = (o, cur')) /\
  (is_Ok (time_Parse W RFC3339 (end_ bd)) = false ->
   fst (Filter_bound W (without_end bd) cur) = (o, cur')).
Proof.
  intros Hd. rewrite (Filter_dispatched W _ _ _ _ Hd).
  pose proof (Filter_bound_log_events W bd cur) as [Hev _].
  pose proof (Filter_bound_without_start W bd cur) as Hstart.
  pose proof (Filter_bound_without_end W bd cur) as Hend.
  pose proof (Filter_bound_scan_prefix W bd cur) as Hscan.
  destruct (Filter_bound W bd cur) as [[o cur'] t].
  cbn [fst snd] in *.
  split; [intros val bd0; split; reflexivity |].
  split.
  { intros v tm Hv Hparse. unfold bound_time.
    apply String.eqb_neq in Hv. rewrite Hv, Hparse. reflexivity. }
  split.
  { intros v e Hparse. unfold bound_time. rewrite Hparse.
    destruct (String.eqb v ""); reflexivity. }
  split; [exact Hev |].
  split; [| split; assumption].
  intros p r from Hh Hp Hr Hs Hready.
  specialize (Hscan p r from Hh Hp Hr Hs). cbv zeta in Hscan.
  destruct (load_mailmap_ready W r from
              (with_rev (refName bd) (with_repo r cur)) Hready)
    as (cur2 & tm & Hload).
  rewrite Hload in Hscan. injection Hscan as -> -> ->.
  split; [find_in | reflexivity].
Qed.

(** C9: with an iterator installed, [Next] never panics; a commit handed
    back becomes the current one; end of sequence and "object not found"
    leave no current commit and are not errors; any other failure of the
    iterator is returned as it is; and [Eof] holds exactly when there is no
    current commit. *)
Theorem C9_next_exhaustion (cur : gitLogCursor) (it : CommitIter) :
  commits cur = Some it ->
  let '(o, cur', t) := Next cur in
  match fst (iter_next it) with
  | Ok c => o = Done tt /\ commit cur' = Some c /\ Eof cur' = false
  | Err e =>
      commit cur' = None /\ Eof cur' = true /\
      (e = EOF \/ e = ErrObjectNotFound -> o = Done tt) /\
      (e <> EOF -> e <> ErrObjectNotFound -> o = Failed e)
  end /\
  commits cur' = Some (snd (iter_next it)) /\
  (forall c : gitLogCursor, Eof c = true <-> commit c = None).
Proof.
  intros Hit. unfold Next. rewrite Hit.
  assert (Heof : forall c : gitLogCursor, Eof c = true <-> commit c = None).
  { intros c. unfold Eof. destruct (commit c); split; congruence. }
  destruct (iter_next it) as [[c | e] it']; cbn [fst snd].
  - repeat split; try reflexivity; apply Heof.
  - destruct e; cbn; (split; [| split; [reflexivity | exact Heof]]);
      repeat split; try reflexivity; try congruence;
      intros [? | ?]; congruence.
Qed.

(** C10: [Filter] indexes the decoded bitmap once per bound value, whatever
    the decoder reported, and panics exactly when there are more values than
    decoded bytes; the token of an accepted plan decodes to as many bytes as
    the plan assigns argument slots, so [Filter] called with that token and
    one value per slot does not panic. *)
Theorem C10_dispatch_in_range (s : string) (values : list Value)
    (cur : gitLogCursor) :
  (fst (fst (Filter W s values cur)) = Panicked <->
   (length (fst (Codec.dec s)) < length values)%nat) /\
  (forall input out,
      BestIndex input = Ok out ->
      s = IndexString out ->
      length values = length (slots (ConstraintUsages out)) ->
      length (fst (Codec.dec s)) = length values /\
      fst (fst (Filter W s values cur)) <> Panicked).
Proof.
  assert (Hpanic : fst (fst (Filter W s values cur)) = Panicked <->
                   (length (fst (Codec.dec s)) < length values)%nat).
  { unfold Filter.
    pose proof (dispatch_None (fst (Codec.dec s)) values 0 no_bound
                  ltac:(lia)) as Hnone.
    destruct (dispatch (fst (Codec.dec s)) 0 values no_bound) as [bd |].
    - split.
      + intros Hp. exfalso.
        pose proof (Filter_bound_log_events W bd cur) as [_ Hout].
        rewrite Hp in Hout. exact Hout.
      + intros Hlt. apply Hnone in Hlt. discriminate.
    - split; [intros _; apply Hnone; reflexivity | reflexivity]. }
  split; [exact Hpanic |].
  intros input out Hout -> Hlen.
  destruct (plan_token_slots input out Hout) as [Hdec Hslots].
  assert (Heq : length (fst (Codec.dec (IndexString out))) = length values).
  { rewrite Hlen, Hslots, length_map, length_seq. reflexivity. }
  split; [exact Heq |].
  rewrite Hpanic. lia.
Qed.

End CursorClaims.

(** *** The claims at sample inputs *)

Lemma C6_point_lookup_witness :
  Filter sample_world "EA==" [text "abc"] new_cursor =
  (Done tt,
   @Build_gitLogCursor sample_git (Some "/repo") None (Some "abc") (Some [])
     None,
   [EvGetDefaultRepo; EvOpen "/repo"; EvLookupIter "abc"; EvIterNext]).
Proof.
  pose proof (@C6_point_lookup sample_git sample_world "EA==" [text "abc"]
                new_cursor hash_bound eq_refl ltac:(discriminate)) as H.
  destruct (Filter sample_world "EA==" [text "abc"] new_cursor)
    as [[o cur'] t].
  destruct H as (_ & _ & H).
  destruct (H "/repo" "/repo" eq_refl eq_refl) as (_ & -> & -> & ->).
  reflexivity.
Defined.

Lemma C7_mailmap_witness :
  fst (fst (Filter sample_world "" [] new_cursor)) = Done tt /\
  fst (fst (Filter sample_world "Gg==" [text "with-mailmap"] new_cursor)) =
    Failed (Wrapf (Other "malformed mailmap")
              "could not parse mailmap file" []).
Proof.
  split.
  - pose proof (@C7_mailmap sample_git sample_world "" [] new_cursor no_bound
                  "/repo" "/repo" "HEAD" eq_refl eq_refl eq_refl eq_refl
                  eq_refl) as H.
    destruct (Filter sample_world "" [] new_cursor) as [[o cur'] t].
    destruct H as [_ H].
    destruct (H eq_refl "HEAD" "HEAD" eq_refl eq_refl) as (_ & H1 & _).
    destruct (H1 eq_refl) as (_ & _ & ->).
    reflexivity.
  - pose proof (@C7_mailmap sample_git sample_world "Gg=="
                  [text "with-mailmap"] new_cursor ref_bound
                  "/repo" "/repo" "with-mailmap" eq_refl eq_refl eq_refl
                  eq_refl eq_refl) as H.
    destruct (Filter sample_world "Gg==" [text "with-mailmap"] new_cursor)
      as [[o cur'] t].
    destruct H as [_ H].
    destruct (H eq_refl "with-mailmap" "with-mailmap" eq_refl eq_refl)
      as (_ & _ & H2).
    destruct (H2 "<>" "<>" (Other "malformed mailmap") eq_refl eq_refl eq_refl)
      as (-> & _).
    reflexivity.
Defined.

Lemma C8_range_bounds_witness :
  In (EvLog range_options)
    (snd (Filter sample_world "Nyc="
            [text "garbage"; text "2021-01-01T00:00:00Z"] new_cursor)) /\
  fst (fst (Filter sample_world "Nyc="
              [text "garbage"; text "2021-01-01T00:00:00Z"] new_cursor)) =
    Done tt.
Proof.
  pose proof (@C8_range_bounds sample_git sample_world "Nyc="
                [text "garbage"; text "2021-01-01T00:00:00Z"] new_cursor
                range_bound eq_refl) as H.
  destruct (Filter sample_world "Nyc="
              [text "garbage"; text "2021-01-01T00:00:00Z"] new_cursor)
    as [[o cur'] t].
  destruct H as (_ & _ & _ & _ & H & _).
  assert (Hready : mailmap_ready sample_world ("/repo" : @Repository sample_git)
                     ("HEAD" : @Hash sample_git)).
  { right. exists "HEAD", "HEAD".
    split; [reflexivity |]. split; [reflexivity |]. left. reflexivity. }
  destruct (H "/repo" "/repo" "HEAD" eq_refl eq_refl eq_refl eq_refl Hready)
    as [Hin ->].
  split; [exact Hin | reflexivity].
Defined.

Lemma C9_next_exhaustion_witness :
  fst (fst (Next dangling_cursor)) = Done tt /\
  Eof (snd (fst (Next dangling_cursor))) = true.
Proof.
  pose proof (@C9_next_exhaustion sample_git dangling_cursor
                [Err ErrObjectNotFound] eq_refl) as H.
  destruct (Next dangling_cursor) as [[o cur'] t].
  cbn [fst snd iter_next] in *.
  destruct H as ((_ & Heof & Hdone & _) & _).
  split; [apply Hdone; right; reflexivity | exact Heof].
Defined.

Lemma C10_dispatch_in_range_witness :
  fst (fst (Filter sample_world "GTcn"
              [text "/repo"; text "2020-01-01T00:00:00Z";
               text "2021-01-01T00:00:00Z"] new_cursor)) <> Panicked.
Proof.
  destruct (@C10_dispatch_in_range sample_git sample_world "GTcn"
              [text "/repo"; text "2020-01-01T00:00:00Z";
               text "2021-01-01T00:00:00Z"] new_cursor) as [_ H].
  exact (proj2 (H sample_input sample_plan eq_refl eq_refl eq_refl)).
Defined.

(** * Further properties *)

(** ** The planner *)

(** [BestIndex] as a function of its input. *)
Lemma BestIndex_rules (input : IndexInfoInput) :
  BestIndex input =
  if existsb required_unusable (Constraints input) then Err SQLITE_CONSTRAINT
  else
    Ok {| ConstraintUsages := fst (plan 0 (Constraints input));
          IndexString := Codec.enc (snd (plan 0 (Constraints input)));
          IdxFlags := if existsb hash_lookup (Constraints input)
                      then INDEX_SCAN_UNIQUE else 0;
          OrderByConsumed := order_consumed (OrderBys input);
          EstimatedCost := if existsb hash_lookup (Constraints input)
                           then 1 else 0;
          EstimatedRows := if existsb hash_lookup (Constraints input)
                           then 1 else 0 |}.
Proof.
  unfold BestIndex.
  pose proof (BestIndex_loop_result (Constraints input) 0 (BestIndex_init input))
    as Hres.
  destruct (BestIndex_loop 0 (Constraints input) (BestIndex_init input))
    as [st | e] eqn:Hrun.
  - rewrite Hres.
    pose proof (BestIndex_loop_estimates _ _ _ _ Hrun) as Hest.
    apply (BestIndex_loop_plan _ _ _ _ []) in Hrun; [| reflexivity | reflexivity].
    cbn [BestIndex_init argv bitmap app] in Hrun. destruct Hrun as [-> ->].
    destruct (existsb hash_lookup (Constraints input));
      destruct Hest as (-> & -> & ->); reflexivity.
  - destruct Hres as [-> ->]. reflexivity.
Qed.

Lemma required_unusable_iff (cs : list IndexConstraint) :
  existsb required_unusable cs = false <->
  forall c, In c cs -> ColumnIndex c = 0 \/ ColumnIndex c = 9 ->
            Usable c = true.
Proof.
  split.
  - intros Hno c Hin Hcol. destruct (Usable c) eqn:Hu; [reflexivity |].
    rewrite (required_unusable_In cs c Hin Hcol Hu) in Hno. discriminate.
  - intros Hall. destruct (existsb required_unusable cs) eqn:Hex;
      [| reflexivity].
    apply existsb_exists in Hex. destruct Hex as (c & Hin & Hc).
    unfold required_unusable in Hc. apply andb_true_iff in Hc.
    destruct Hc as [Hcol Hu]. apply orb_true_iff in Hcol.
    rewrite (Hall c Hin) in Hu; [discriminate |].
    destruct Hcol as [H | H]; [left | right]; lia.
Qed.

(** X1: [BestIndex] produces a plan exactly when every predicate on the
    hash column and on the repository column is usable, whatever its
    operator; and the only error it ever returns is the constraint error. *)
Theorem X1_BestIndex_accepts_iff (input : IndexInfoInput) :
  (is_Ok (BestIndex input) = true <->
   forall c, In c (Constraints input) ->
             ColumnIndex c = 0 \/ ColumnIndex c = 9 -> Usable c = true) /\
  (forall e, BestIndex input = Err e -> e = SQLITE_CONSTRAINT).
Proof.
  rewrite BestIndex_rules, <- required_unusable_iff.
  destruct (existsb required_unusable (Constraints input)); cbn [is_Ok].
  - split; [split; discriminate | intros e [= <-]; reflexivity].
  - split; [split; reflexivity | discriminate].
Qed.

(** X2: in a plan, a predicate that was given a slot is marked as needing
    no re-check by the host exactly when it is on one of the two hidden
    columns (9, 10); the hash equality and the range bounds on
    [committer_when] are re-checked. *)
Theorem X2_omit_only_hidden (input : IndexInfoInput) (out : IndexInfoOutput)
    (i : nat) (c : IndexConstraint) (u : ConstraintUsage) :
  BestIndex input = Ok out ->
  Constraints input !! i = Some c ->
  ConstraintUsages out !! i = Some (Some u) ->
  (Omit u = true <-> ColumnIndex c = 9 \/ ColumnIndex c = 10).
Proof.
  intros Hout Hc Hu. destruct (BestIndex_plan _ _ Hout) as [Hus _].
  rewrite Hus in Hu.
  destruct (plan_lookup _ _ _ _ _ Hc Hu) as (role & _ & -> & _).
  unfold omit_of. rewrite orb_true_iff. lia.
Qed.

Lemma X2_omit_only_hidden_witness :
  Omit {| ArgvIndex := 1; Omit := true |} = true <->
  ColumnIndex (mk 9 INDEX_CONSTRAINT_EQ true) = 9 \/
  ColumnIndex (mk 9 INDEX_CONSTRAINT_EQ true) = 10.
Proof.
  exact (X2_omit_only_hidden sample_input sample_plan 1%nat
           (mk 9 INDEX_CONSTRAINT_EQ true) {| ArgvIndex := 1; Omit := true |}
           eq_refl eq_refl eq_refl).
Defined.

(** *** Planning a conjunction of two predicate lists *)

Lemma plan_shift (cs : list IndexConstraint) :
  forall n k,
    plan (n + k) cs = (map (shift_slot k) (fst (plan n cs)), snd (plan n cs)).
Proof.
  induction cs as [| c cs IH]; intros n k; [reflexivity |].
  cbn [plan]. destruct (tag_of c) as [t |].
  - replace (n + k + 1) with (n + 1 + k) by lia. rewrite IH.
    destruct (plan (n + 1) cs) as [us ts]. cbn. repeat f_equal.
  - rewrite IH. destruct (plan n cs) as [us ts]. reflexivity.
Qed.

Lemma plan_app (cs1 cs2 : list IndexConstraint) :
  forall n,
    plan n (cs1 ++ cs2) =
    (fst (plan n cs1)
       ++ fst (plan (n + Z.of_nat (length (snd (plan n cs1)))) cs2),
     snd (plan n cs1)
       ++ snd (plan (n + Z.of_nat (length (snd (plan n cs1)))) cs2)).
Proof.
  induction cs1 as [| c cs1 IH]; intros n.
  - cbn. rewrite Z.add_0_r. destruct (plan n cs2); reflexivity.
  - cbn [app plan]. destruct (tag_of c) as [t |].
    + rewrite IH. destruct (plan (n + 1) cs1) as [us ts].
      cbn [fst snd length app].
      replace (n + 1 + Z.of_nat (length ts))
        with (n + Z.of_nat (S (length ts))) by lia.
      reflexivity.
    + rewrite IH. destruct (plan n cs1) as [us ts]. reflexivity.
Qed.

Lemma tags_of_plan (input : IndexInfoInput) (out : IndexInfoOutput) :
  BestIndex input = Ok out -> tags_of out = snd (plan 0 (Constraints input)).
Proof.
  intros Hout. destruct (BestIndex_plan _ _ Hout) as [_ Hdec].
  unfold tags_of. rewrite Hdec. reflexivity.
Qed.

(** X3: when two predicate lists are each accepted, so is their
    concatenation (under any ordering request); its tags are the tags of the
    first list followed by those of the second, and its usage entries are
    those of the first list followed by those of the second with every slot
    moved up by the number of slots of the first. *)
Theorem X3_plan_of_concatenation (cs1 cs2 : list IndexConstraint)
    (obs obs1 obs2 : list OrderBy) (out1 out2 : IndexInfoOutput) :
  BestIndex {| Constraints := cs1; OrderBys := obs1 |} = Ok out1 ->
  BestIndex {| Constraints := cs2; OrderBys := obs2 |} = Ok out2 ->
  exists out,
    BestIndex {| Constraints := cs1 ++ cs2; OrderBys := obs |} = Ok out /\
    tags_of out = tags_of out1 ++ tags_of out2 /\
    ConstraintUsages out =
      ConstraintUsages out1
        ++ map (shift_slot (Z.of_nat (length (tags_of out1))))
             (ConstraintUsages out2) /\
    IdxFlags out = Z.lor (IdxFlags out1) (IdxFlags out2).
Proof.
  intros H1 H2.
  pose proof (tags_of_plan _ _ H1) as Ht1.
  pose proof (tags_of_plan _ _ H2) as Ht2.
  cbn [Constraints] in Ht1, Ht2.
  rewrite BestIndex_rules in H1, H2. cbn [Constraints OrderBys] in H1, H2.
  destruct (existsb required_unusable cs1) eqn:Hu1; [discriminate |].
  destruct (existsb required_unusable cs2) eqn:Hu2; [discriminate |].
  injection H1 as <-. injection H2 as <-.
  eexists. split.
  - rewrite BestIndex_rules. cbn [Constraints OrderBys].
    rewrite existsb_app, Hu1, Hu2. reflexivity.
  - assert (Hplan := plan_app cs1 cs2 0).
    rewrite (plan_shift cs2 0) in Hplan.
    split; [| split].
    + unfold tags_of at 1. cbn [IndexString].
      rewrite CodecFacts.dec_enc by apply plan_bytes.
      cbn [fst]. rewrite Hplan, Ht1, Ht2. reflexivity.
    + cbn [ConstraintUsages]. rewrite Hplan, Ht1. reflexivity.
    + cbn [IdxFlags]. rewrite existsb_app.
      destruct (existsb hash_lookup cs1), (existsb hash_lookup cs2);
        reflexivity.
Qed.

Lemma X3_plan_of_concatenation_witness :
  exists out,
    BestIndex {| Constraints := Constraints hash_input ++ Constraints sample_input;
                 OrderBys := [] |} = Ok out /\
    tags_of out = [16; 55] ++ [25; 55; 39].
Proof.
  destruct (X3_plan_of_concatenation (Constraints hash_input)
              (Constraints sample_input) [] (OrderBys hash_input)
              (OrderBys sample_input) hash_plan sample_plan eq_refl eq_refl)
    as (out & Hout & Htags & _).
  exists out. split; [exact Hout | exact Htags].
Defined.

(** *** From the plan to the locals of [Filter] *)

Lemma route_tag (c : IndexConstraint) (t : Z) (val : Value) (bd : bound) :
  tag_of c = Some t -> route t val bd = assign c val bd.
Proof.
  unfold tag_of, role_of, assign.
  destruct (Usable c); cbn [negb]; [| discriminate].
  destruct (Op c); try discriminate;
    repeat match goal with
           | |- context [Z.eqb (ColumnIndex c) ?b] =>
               destruct (Z.eqb_spec (ColumnIndex c) b) as [-> | ?]
           end; cbn [orb]; try discriminate; intros [= <-]; reflexivity.
Qed.

Lemma assign_unused (c : IndexConstraint) (val : Value) (bd : bound) :
  tag_of c = None -> assign c val bd = bd.
Proof.
  unfold tag_of, role_of, assign.
  destruct (Usable c); cbn [negb]; [| reflexivity].
  destruct (Op c); try reflexivity;
    repeat match goal with
           | |- context [Z.eqb (ColumnIndex c) ?b] =>
               destruct (Z.eqb_spec (ColumnIndex c) b) as [-> | ?]
           end; cbn [orb]; try discriminate; reflexivity.
Qed.

Lemma dispatch_plan (cs : list IndexConstraint) :
  forall n (vals : list Value) (pre : list Z) (bd : bound),
    length vals = length cs ->
    dispatch (pre ++ snd (plan n cs)) (length pre)
      (deliver (fst (plan n cs)) vals) bd =
    Some (assign_all cs vals bd).
Proof.
  induction cs as [| c cs IH]; intros n vals pre bd Hlen.
  - destruct vals; [reflexivity | discriminate].
  - destruct vals as [| val vals]; [discriminate |].
    cbn [length] in Hlen. cbn [plan assign_all].
    destruct (tag_of c) as [t |] eqn:Ht.
    + specialize (IH (n + 1) vals (pre ++ [t]) (assign c val bd)).
      destruct (plan (n + 1) cs) as [us ts]. cbn [fst snd deliver dispatch] in *.
      rewrite list_lookup_middle by reflexivity.
      rewrite (route_tag c t val bd Ht).
      rewrite <- IH by lia. rewrite <- app_assoc, length_app.
      cbn [length app]. replace (length pre + 1)%nat with (S (length pre)) by lia.
      reflexivity.
    + specialize (IH n vals pre bd).
      destruct (plan n cs) as [us ts]. cbn [fst snd deliver] in *.
      rewrite (assign_unused c val bd Ht). apply IH. lia.
Qed.

(** X4: for an accepted constraint set, when the host delivers the values
    of the predicates that were given a slot, the dispatch loop of [Filter]
    over the decoded token never runs out of range and leaves in the locals
    exactly what the predicates mean, taken in order: the value of the last
    usable equality on hash, repository and ref, and of the last usable [>]
    and [<] on [committer_when]. *)
Theorem X4_plan_drives_dispatch (input : IndexInfoInput)
    (out : IndexInfoOutput) (vals : list Value) :
  BestIndex input = Ok out ->
  length vals = length (Constraints input) ->
  dispatch (fst (Codec.dec (IndexString out))) 0
    (deliver (ConstraintUsages out) vals) no_bound =
  Some (assign_all (Constraints input) vals no_bound).
Proof.
  intros Hout Hlen. destruct (BestIndex_plan _ _ Hout) as [-> ->].
  cbn [fst]. exact (dispatch_plan (Constraints input) 0 vals [] no_bound Hlen).
Qed.

Lemma X4_plan_drives_dispatch_witness :
  dispatch (fst (Codec.dec (IndexString sample_plan))) 0
    (deliver (ConstraintUsages sample_plan)
       [text "m"; text "/repo"; text "t0"; text "main"; text "t1"]) no_bound =
  Some {| hash := ""; path := "/repo"; refName := ""; start := "t0";
          end_ := "t1" |}.
Proof.
  exact (X4_plan_drives_dispatch sample_input sample_plan
           [text "m"; text "/repo"; text "t0"; text "main"; text "t1"]
           eq_refl eq_refl).
Defined.

(** ** The cursor *)

Section CursorExtras.

Context `{G : Git}.
Variable W : Collaborators.

(** *** Relations between the cursor before and after *)

Section Preserved.

Variable I : gitLogCursor -> gitLogCursor -> Prop.
Hypothesis I_refl : forall cur, I cur cur.
Hypothesis I_trans : forall a b c, I a b -> I b c -> I a c.

Lemma preserves_bind {A B} (m : M A) (f : A -> M B) :
  preserves I m -> (forall a, preserves I (f a)) -> preserves I (bind m f).
Proof.
  intros Hm Hf cur. specialize (Hm cur). unfold bind.
  destruct (m cur) as [[[a | e |] cur1] t1]; cbn [fst snd] in *;
    try exact Hm.
  specialize (Hf a cur1). destruct (f a cur1) as [[o2 cur2] t2].
  cbn [fst snd] in *. eapply I_trans; eassumption.
Qed.

Lemma preserves_ret {A} (a : A) : preserves I (ret a).
Proof. intros cur. apply I_refl. Qed.

Lemma preserves_fail {A} (e : error) : preserves I (fail e : M A).
Proof. intros cur. apply I_refl. Qed.

Lemma preserves_emit (ev : event) : preserves I (emit ev).
Proof. intros cur. apply I_refl. Qed.

Lemma preserves_call {A} (ev : event) (r : result A) :
  preserves I (call ev r).
Proof. intros cur. apply I_refl. Qed.

Lemma preserves_try_wrap {A} (ev : event) (r : result A)
    (wrap : error -> error) :
  preserves I (try_wrap ev r wrap).
Proof. intros cur. unfold try_wrap, call, emit, bind, ret, fail.
  destruct r; apply I_refl. Qed.

Lemma preserves_modify (g : gitLogCursor -> gitLogCursor) :
  (forall cur, I cur (g cur)) -> preserves I (modify g).
Proof. intros Hg cur. apply Hg. Qed.

Lemma preserves_Next :
  (forall cur it c, I cur (with_commit c (with_commits it cur))) ->
  preserves I Next.
Proof.
  intros Hn cur. unfold Next. destruct (commits cur) as [it |];
    [| apply I_refl].
  destruct (iter_next it) as [[c | e] it']; cbn [fst snd]; [apply Hn |].
  destruct (negb (eof e) && negb (is_ErrObjectNotFound e)); apply Hn.
Qed.

(** [Filter] preserves every relation that its five updates of the cursor
    preserve. *)
Lemma preserves_Filter_bound (bd : bound) :
  (forall cur r, I cur (with_repo r cur)) ->
  (forall cur name, I cur (with_rev name cur)) ->
  (forall cur it, I cur (with_commits it cur)) ->
  (forall cur it c, I cur (with_commit c (with_commits it cur))) ->
  (forall cur m mp, mailmap_Parse W m = Ok mp -> I cur (with_mm mp cur)) ->
  preserves I (Filter_bound W bd).
Proof.
  intros Hrepo Hrev Hits Hnext Hmm.
  assert (Hinstall : forall it,
             preserves I (bind (modify (with_commits (Some it)))
                            (fun _ => Next))).
  { intros it. apply preserves_bind; [apply preserves_modify; intros ?; apply Hits |].
    intros _. apply preserves_Next, Hnext. }
  unfold Filter_bound. apply preserves_bind.
  { unfold open_repo. apply preserves_bind.
    - destruct (String.eqb (path bd) "");
        [apply preserves_try_wrap | apply preserves_ret].
    - intros p. apply preserves_bind; [apply preserves_try_wrap |].
      intros r. apply preserves_bind; [apply preserves_modify; intros ?; apply Hrepo |].
      intros _. apply preserves_ret. }
  intros pr. destruct (negb (String.eqb (hash bd) "")).
  { unfold lookup_commit. apply preserves_bind; [apply preserves_emit |].
    intros _. apply Hinstall. }
  apply preserves_bind.
  { unfold resolve_from. apply preserves_bind; [apply preserves_modify; intros ?; apply Hrev |].
    intros _. destruct (negb (String.eqb (refName bd) ""));
      apply preserves_try_wrap. }
  intros from. apply preserves_bind.
  { unfold load_mailmap. apply preserves_bind; [apply preserves_emit |].
    intros _. destruct (GetBool W "skipMailmap"); [apply preserves_ret |].
    apply preserves_bind; [apply preserves_try_wrap |]. intros c.
    apply preserves_bind; [apply preserves_try_wrap |]. intros t.
    apply preserves_bind; [apply preserves_call |]. intros [f | e].
    - apply preserves_bind; [apply preserves_try_wrap |]. intros m.
      intros cur. unfold bind, try_wrap, call, emit, ret, fail, modify.
      destruct (mailmap_Parse W m) as [mp | e] eqn:Hp; cbn [fst snd].
      + apply (Hmm cur m mp Hp).
      + apply I_refl.
    - destruct (negb (is_ErrFileNotFound e));
        [apply preserves_fail | apply preserves_ret]. }
  intros _. apply preserves_bind.
  { unfold parse_bound. destruct (negb (String.eqb (start bd) ""));
      [| apply preserves_ret].
    apply preserves_bind; [apply preserves_call |].
    intros [t | e]; apply preserves_ret. }
  intros since_t. apply preserves_bind.
  { unfold parse_bound. destruct (negb (String.eqb (end_ bd) ""));
      [| apply preserves_ret].
    apply preserves_bind; [apply preserves_call |].
    intros [t | e]; apply preserves_ret. }
  intros until_t. unfold log_commits.
  apply preserves_bind; [apply preserves_call |].
  intros [it | e]; [apply Hinstall |].
  apply preserves_bind; [apply preserves_modify; intros ?; apply Hits | intros _; apply preserves_fail].
Qed.

End Preserved.

Lemma snd_let_trace {A} (x : outcome A * gitLogCursor * list event)
    (t1 : list event) :
  snd (let '(o, c, t) := x in (o, c, t1 ++ t)) = t1 ++ snd x.
Proof. destruct x as [[o c] t]. reflexivity. Qed.

(** *** Which strategy [Filter] takes *)

Lemma Filter_bound_scan_events (bd : bound) :
  hash bd = "" ->
  tame (fun ev => match ev with EvLookupIter _ => False | _ => True end)
    (fun _ => True) (Filter_bound W bd).
Proof.
  intros Hh. unfold Filter_bound. rewrite Hh. cbn [String.eqb negb].
  eapply tame_bind; [apply tame_open_repo; [exact I | intros; exact I] |].
  intros pr _.
  eapply tame_bind; [apply tame_resolve_from; [exact I | intros; exact I] |].
  intros from _.
  eapply tame_bind;
    [apply tame_load_mailmap;
     [intros ev Hev; destruct ev; try discriminate; exact I | exact I] |].
  intros _ _.
  eapply tame_bind; [apply tame_parse_bound; exact I |]. intros since_t _.
  eapply tame_bind; [apply tame_parse_bound; exact I |]. intros until_t _.
  apply tame_log_commits; exact I.
Qed.

(** X5: once the repository is open, [Filter] takes the point lookup
    exactly when the hash local is not empty.  With an empty hash value
    (as in [WHERE hash = '']) it goes on to resolve the start point of a
    range scan and never builds the single-hash iterator. *)
Theorem X5_strategy_by_hash (bd : bound) (cur : gitLogCursor) (p : string)
    (r : Repository) :
  repo_path W bd = Ok p ->
  Locator_Open W p = Ok r ->
  (hash bd <> "" ->
   In (EvLookupIter (hash bd)) (snd (Filter_bound W bd cur)) /\
   Forall (fun ev => scan_event ev = false) (snd (Filter_bound W bd cur))) /\
  (hash bd = "" ->
   In (start_event bd) (snd (Filter_bound W bd cur)) /\
   Forall (fun ev => match ev with EvLookupIter _ => False | _ => True end)
     (snd (Filter_bound W bd cur))).
Proof.
  intros Hp Hr. split.
  - intros Hh. split; [| apply (Filter_bound_lookup_events W bd Hh cur)].
    rewrite (Filter_bound_lookup_run W bd cur p r Hh Hp Hr). cbn [snd].
    find_in.
  - intros Hh. split; [| apply (Filter_bound_scan_events bd Hh cur)].
    unfold Filter_bound.
    rewrite (bind_run _ _ _ _ _ _ (open_repo_run W bd cur p r Hp Hr)).
    cbn [snd]. rewrite Hh. cbn [String.eqb negb].
    unfold resolve_from, start_event.
    unfold bind at 2. unfold modify at 1.
    destruct (String.eqb (refName bd) ""); cbn [negb];
      unfold try_wrap, call, emit, bind, ret, fail;
      repeat match goal with
             | |- context [match ?x with _ => _ end] =>
                 lazymatch x with
                 | context [match _ with _ => _ end] => fail
                 | _ => destruct x
                 end
             end; cbn [snd fst]; find_in.
Qed.

(** *** Failures before the traversal *)

(** X6: the repository [Filter] opens is the bound path, and only with no
    path bound the default of the context, which is then asked first.  When
    the default cannot be had, [Filter] returns that error as it is and
    calls nothing else; when the repository cannot be opened, it returns the
    error wrapped with the path; in both cases the cursor is left as it
    was. *)
Theorem X6_repository_selection (bd : bound) (cur : gitLogCursor) :
  match repo_path W bd with
  | Err e => Filter_bound W bd cur = (Failed e, cur, [EvGetDefaultRepo])
  | Ok p =>
      (path bd <> "" -> p = path bd) /\
      (exists t', snd (Filter_bound W bd cur) = open_events bd p ++ t') /\
      (forall e, Locator_Open W p = Err e ->
                 Filter_bound W bd cur =
                 (Failed (Wrapf e "failed to open %q" [p]), cur,
                  open_events bd p))
  end.
Proof.
  destruct (repo_path W bd) as [p | e] eqn:Hp.
  - assert (Hfail : forall e, Locator_Open W p = Err e ->
                      Filter_bound W bd cur =
                      (Failed (Wrapf e "failed to open %q" [p]), cur,
                       open_events bd p)).
    { intros e He. unfold Filter_bound, open_repo, open_events.
      unfold repo_path in Hp.
      destruct (String.eqb (path bd) ""); [| injection Hp as <-];
        unfold try_wrap, call, emit, modify, ret, fail, bind;
        rewrite ?Hp; cbn; rewrite He; reflexivity. }
    split; [| split; [| exact Hfail]].
    + intros Hne. apply String.eqb_neq in Hne. unfold repo_path in Hp.
      rewrite Hne in Hp. congruence.
    + destruct (Locator_Open W p) as [r | e] eqn:Hr.
      * unfold Filter_bound.
        rewrite (bind_run _ _ _ _ _ _ (open_repo_run W bd cur p r Hp Hr)).
        rewrite snd_let_trace. eexists. reflexivity.
      * rewrite (Hfail e eq_refl). cbn [snd]. exists [].
        rewrite app_nil_r. reflexivity.
  - unfold repo_path in Hp. unfold Filter_bound, open_repo.
    destruct (String.eqb (path bd) ""); [| discriminate].
    unfold try_wrap, call, emit, modify, ret, fail, bind.
    rewrite Hp. reflexivity.
Qed.

(** X7: in the range scan a bound reference name is resolved and the head
    is not asked; a name that does not resolve makes [Filter] return
    "failed to resolve" with the name, without the cause; with no name bound
    the head is asked, and its failure is returned wrapped.  Either failure
    leaves the repository and the revision name in the cursor and nothing
    else. *)
Theorem X7_start_point (bd : bound) (cur : gitLogCursor) (p : string)
    (r : Repository) :
  hash bd = "" ->
  repo_path W bd = Ok p ->
  Locator_Open W p = Ok r ->
  (refName bd <> "" ->
   Forall (fun ev => match ev with EvHead => False | _ => True end)
     (snd (Filter_bound W bd cur)) /\
   forall e,
     ResolveRevision W r (refName bd) = Err e ->
     Filter_bound W bd cur =
     (Failed (Errorf "failed to resolve %q" [refName bd]),
      with_rev (refName bd) (with_repo r cur),
      open_events bd p ++ [EvResolveRevision (refName bd)])) /\
  (refName bd = "" ->
   Forall (fun ev => match ev with
                     | EvResolveRevision _ => False
                     | _ => True
                     end) (snd (Filter_bound W bd cur)) /\
   forall e,
     Head W r = Err e ->
     Filter_bound W bd cur =
     (Failed (Wrapf e "failed to resolve head" []),
      with_rev (refName bd) (with_repo r cur),
      open_events bd p ++ [EvHead])).
Proof.
  intros Hh Hp Hr.
  assert (Hevents : forall (P : event -> Prop),
             P EvGetDefaultRepo -> (forall q, P (EvOpen q)) ->
             P (start_event bd) -> P (EvGetBool "skipMailmap") ->
             (forall ev, mailmap_event ev = true -> P ev) ->
             (forall l v, P (EvTimeParse l v)) ->
             (forall o, P (EvLog o)) -> P EvIterNext ->
             Forall P (snd (Filter_bound W bd cur))).
  { intros P Hd Ho Hs Hg Hm Ht Hl Hn.
    assert (Htame : tame P (fun _ => True) (Filter_bound W bd)).
    { unfold Filter_bound. rewrite Hh. cbn [String.eqb negb].
      eapply tame_bind; [apply tame_open_repo; assumption |].
      intros pr _. eapply (tame_bind _ (fun _ => True)).
      - unfold resolve_from, start_event in *.
        eapply (tame_bind _ (fun _ => True)); [apply tame_modify |].
        intros _ _. destruct (String.eqb (refName bd) ""); cbn [negb];
          (eapply tame_weaken; [apply tame_try_wrap; exact Hs | auto]).
      - intros from _.
        eapply tame_bind; [apply tame_load_mailmap; assumption |].
        intros _ _.
        eapply tame_bind; [apply tame_parse_bound; apply Ht |].
        intros since_t _.
        eapply tame_bind; [apply tame_parse_bound; apply Ht |].
        intros until_t _. apply tame_log_commits; [apply Hl | exact Hn]. }
    apply Htame. }
  split; intros Href.
  - split.
    + apply Hevents; try (intros; exact I).
      * unfold start_event. apply String.eqb_neq in Href. rewrite Href. exact I.
      * intros ev Hev. destruct ev; try discriminate; exact I.
    + intros e He. apply String.eqb_neq in Href.
      unfold Filter_bound.
      rewrite (bind_run _ _ _ _ _ _ (open_repo_run W bd cur p r Hp Hr)).
      cbn [snd]. rewrite Hh. cbn [String.eqb negb].
      unfold resolve_from, try_wrap, call, emit, modify, ret, fail, bind.
      rewrite Href. cbn [negb]. rewrite He. cbn.
      unfold open_events. rewrite <- app_assoc. reflexivity.
  - split.
    + apply Hevents; try (intros; exact I).
      * unfold start_event. rewrite Href. exact I.
      * intros ev Hev. destruct ev; try discriminate; exact I.
    + intros e He. unfold Filter_bound.
      rewrite (bind_run _ _ _ _ _ _ (open_repo_run W bd cur p r Hp Hr)).
      cbn [snd]. rewrite Hh. cbn [String.eqb negb].
      unfold resolve_from, try_wrap, call, emit, modify, ret, fail, bind.
      rewrite Href. cbn [String.eqb negb]. rewrite He. cbn.
      unfold open_events. rewrite <- app_assoc. reflexivity.
Qed.

(** *** The identity map *)

(** X8: the identity-map stage of [Filter] ends normally exactly when the
    skip flag is set, or the start commit and its tree can be read and the
    [.mailmap] blob is missing or parses.  In every other case it returns an
    error, wrapped under one of five messages, and never panics; so a
    failure to look the blob up that is not "file not found" is fatal. *)
Theorem X8_mailmap_stage (r : Repository) (from : Hash) (cur : gitLogCursor) :
  (fst (fst (load_mailmap W r from cur)) = Done tt <->
   mailmap_ready W r from) /\
  (forall e,
      fst (fst (load_mailmap W r from cur)) = Failed e ->
      exists cause msg,
        e = Wrapf cause msg [] /\
        In msg ["could not lookup commit"; "could not lookup tree";
                "could not lookup mailmap file";
                "could not retrieve contents of mailmap file";
                "could not parse mailmap file"]) /\
  fst (fst (load_mailmap W r from cur)) <> Panicked.
Proof.
  unfold mailmap_ready, load_mailmap, try_wrap, call, emit, modify, ret,
    fail, bind.
  destruct (GetBool W "skipMailmap") eqn:Hs; cbn [fst snd].
  { split; [split; auto |]. split; [discriminate | discriminate]. }
  destruct (CommitObject W r from) as [c | e1] eqn:Hc; cbn [fst snd].
  2:{ split; [split; [discriminate |] |].
      - intros [H | (c & t & H & _)]; discriminate.
      - split; [| discriminate].
        intros e [= <-]. eexists _, _. split; [reflexivity |]. cbn; auto. }
  destruct (Commit_Tree W c) as [t | e1] eqn:Ht; cbn [fst snd].
  2:{ split; [split; [discriminate |] |].
      - intros [H | (c' & t & Hc' & H & _)]; [discriminate | congruence].
      - split; [| discriminate].
        intros e [= <-]. eexists _, _. split; [reflexivity |]. cbn; auto. }
  destruct (Tree_File W t ".mailmap") as [f | e1] eqn:Hf; cbn [fst snd].
  2:{ destruct e1; cbn [is_ErrFileNotFound negb fst snd];
        try (split; [split; [discriminate |] |];
             [ intros [H | (c' & t' & Hc' & Ht' & [H | (f & m & mp & H & _)])];
               [discriminate | congruence | congruence]
             | split; [| discriminate];
               intros e [= <-]; eexists _, _; split; [reflexivity |];
               cbn; auto ]).
      split; [split; [| reflexivity] |].
      - intros _. right. exists c, t. auto.
      - split; discriminate. }
  destruct (File_Contents W f) as [m | e1] eqn:Hm; cbn [fst snd].
  2:{ split; [split; [discriminate |] |].
      - intros [H | (c' & t' & Hc' & Ht' & [H | (f' & m & mp & Hf' & H & _)])];
          [discriminate | congruence | congruence].
      - split; [| discriminate].
        intros e [= <-]. eexists _, _. split; [reflexivity |]. cbn; auto 6. }
  destruct (mailmap_Parse W m) as [mp | e1] eqn:Hp; cbn [fst snd].
  - split; [split; [| reflexivity] |].
    + intros _. right. exists c, t. split; [reflexivity |].
      split; [exact Ht |]. right. exists f, m, mp. auto.
    + split; discriminate.
  - split; [split; [discriminate |] |].
    + intros [H | (c' & t' & Hc' & Ht' &
                   [H | (f' & m' & mp & Hf' & Hm' & H)])];
        [discriminate | congruence | congruence].
    + split; [| discriminate].
      intros e [= <-]. eexists _, _. split; [reflexivity |]. cbn; auto 7.
Qed.

(** X9: [Filter] never clears the identity map of the cursor: after any
    call the map is the one the cursor had before, or one that the mailmap
    parser has just produced.  A cursor that is filtered again with the skip
    flag set, or at a start commit without [.mailmap], keeps its earlier
    map. *)
Theorem X9_identity_map_kept (s : string) (values : list Value)
    (cur : gitLogCursor) :
  map_kept_or_parsed W cur (snd (fst (Filter W s values cur))).
Proof.
  unfold Filter.
  destruct (dispatch (fst (Codec.dec s)) 0 values no_bound) as [bd |];
    [| left; reflexivity].
  apply (preserves_Filter_bound (map_kept_or_parsed W)).
  - intros c. left. reflexivity.
  - intros a b c [Hab | (m & mp & Hp & Hab)] [Hbc | (m' & mp' & Hp' & Hbc)].
    + left. congruence.
    + right. exists m', mp'. auto.
    + right. exists m, mp. split; [exact Hp | congruence].
    + right. exists m', mp'. auto.
  - intros c r. left. reflexivity.
  - intros c name. left. reflexivity.
  - intros c it. left. reflexivity.
  - intros c it k. left. reflexivity.
  - intros c m mp Hp. right. exists m, mp. auto.
Qed.

(** *** After [Filter] *)

Lemma bind_outcome {A B} (Q : outcome B -> gitLogCursor -> Prop)
    (m : M A) (f : A -> M B) (cur : gitLogCursor) :
  (forall e c, Q (Failed e) c) ->
  (forall c, Q Panicked c) ->
  (forall a c, Q (fst (fst (f a c))) (snd (fst (f a c)))) ->
  Q (fst (fst (bind m f cur))) (snd (fst (bind m f cur))).
Proof.
  intros Hf Hp Hk. unfold bind.
  destruct (m cur) as [[[a | e |] cur1] t1]; cbn [fst snd]; auto.
  specialize (Hk a cur1). destruct (f a cur1) as [[o2 c2] t2]. exact Hk.
Qed.

(** X10: when [Filter] returns nil the cursor holds an iterator, so that
    the [Next] the host calls afterwards cannot hit a nil iterator. *)
Theorem X10_iterator_installed (s : string) (values : list Value)
    (cur : gitLogCursor) :
  fst (fst (Filter W s values cur)) = Done tt ->
  (exists it, commits (snd (fst (Filter W s values cur))) = Some it) /\
  fst (fst (Next (snd (fst (Filter W s values cur))))) <> Panicked.
Proof.
  set (Q := fun (o : outcome unit) (c : gitLogCursor) =>
              o = Done tt -> exists it, commits c = Some it).
  assert (HQ : Q (fst (fst (Filter W s values cur)))
                 (snd (fst (Filter W s values cur)))).
  { assert (Hnext : forall it c,
               Q (fst (fst (bind (modify (with_commits (Some it)))
                              (fun _ => Next) c)))
                 (snd (fst (bind (modify (with_commits (Some it)))
                              (fun _ => Next) c)))).
    { intros it c. rewrite install_Next_run. cbn [fst snd].
      intros _. eexists. reflexivity. }
    unfold Filter.
    destruct (dispatch (fst (Codec.dec s)) 0 values no_bound) as [bd |];
      [| discriminate].
    unfold Filter_bound.
    apply bind_outcome; try discriminate. intros pr c1.
    destruct (negb (String.eqb (hash bd) "")).
    - unfold lookup_commit. apply bind_outcome; try discriminate.
      intros _ c2. apply Hnext.
    - apply bind_outcome; try discriminate. intros from c2.
      apply bind_outcome; try discriminate. intros _ c3.
      apply bind_outcome; try discriminate. intros since_t c4.
      apply bind_outcome; try discriminate. intros until_t c5.
      unfold log_commits. apply bind_outcome; try discriminate.
      intros [it | e] c6; [apply Hnext |].
      apply bind_outcome; discriminate. }
  intros Hdone. destruct (HQ Hdone) as [it Hit].
  split; [exists it; exact Hit |].
  unfold Next. rewrite Hit.
  destruct (iter_next it) as [[c | e] it']; cbn [fst]; [discriminate |].
  destruct (negb (eof e) && negb (is_ErrObjectNotFound e)); discriminate.
Qed.

(** *** The rows of a traversal *)

Lemma scan_exhausted (fuel : nat) (cur : gitLogCursor) :
  commit cur = None -> scan fuel cur = Some ([], Done tt).
Proof. intros Hc. destruct fuel; cbn; rewrite Hc; reflexivity. Qed.

Lemma scan_rows (it : CommitIter) :
  forall (fuel : nat) (cur : gitLogCursor) (c : Commit),
    (length it < fuel)%nat ->
    commits cur = Some it ->
    commit cur = Some c ->
    scan fuel cur = Some (c :: leading_commits it, closing_outcome it).
Proof.
  induction it as [| [c1 | e] it IH]; intros fuel cur c Hfuel Hit Hc;
    (destruct fuel as [| fuel]; [cbn in Hfuel; lia |]);
    cbn [scan]; rewrite Hc; unfold Next; rewrite Hit;
    cbn [iter_next leading_commits closing_outcome].
  - cbn [eof is_ErrObjectNotFound negb andb].
    rewrite scan_exhausted by reflexivity. reflexivity.
  - rewrite (IH fuel _ c1); [reflexivity | cbn in Hfuel; lia | reflexivity
                            | reflexivity].
  - destruct e; cbn [eof is_ErrObjectNotFound negb andb orb];
      try reflexivity; rewrite scan_exhausted by reflexivity; reflexivity.
Qed.

(** X11: the host's row loop over a cursor that holds a current commit and
    an iterator reads that commit and then the commits the iterator hands
    out before its first failure.  The loop ends cleanly at the end of the
    sequence and also at an "object not found" in the middle of it, which
    silently drops the rest; any other failure ends it with that error. *)
Theorem X11_rows_of_scan (fuel : nat) (cur : gitLogCursor) (it : CommitIter)
    (c : Commit) :
  (length it < fuel)%nat ->
  commits cur = Some it ->
  commit cur = Some c ->
  scan fuel cur = Some (c :: leading_commits it, closing_outcome it).
Proof. apply scan_rows. Qed.

(** X12: a point lookup yields at most one row.  Once the repository is
    open, [Filter] with a non-empty hash returns nil and the row loop reads
    the one commit when the hash resolves; when the lookup answers "object
    not found" (or end of sequence) [Filter] still returns nil and there is
    no row; any other lookup failure is what [Filter] returns. *)
Theorem X12_rows_of_point_lookup (bd : bound) (cur : gitLogCursor)
    (p : string) (r : Repository) :
  hash bd <> "" ->
  repo_path W bd = Ok p ->
  Locator_Open W p = Ok r ->
  let '(o, cur', _) := Filter_bound W bd cur in
  match CommitObject W r (NewHash W (hash bd)) with
  | Ok c => o = Done tt /\ scan 1 cur' = Some ([c], Done tt)
  | Err e =>
      scan 0 cur' = Some ([], Done tt) /\
      o = if eof e || is_ErrObjectNotFound e then Done tt else Failed e
  end.
Proof.
  intros Hh Hp Hr.
  rewrite (Filter_bound_lookup_run W bd cur p r Hh Hp Hr).
  unfold NewEncodedObjectLookupIter, advance_outcome, advance_commit.
  cbn [map iter_next fst snd].
  destruct (CommitObject W r (NewHash W (hash bd))) as [c | e].
  - split; [reflexivity |].
    apply (scan_rows [] 1 _ c); [cbn; lia | reflexivity | reflexivity].
  - split; [apply scan_exhausted; reflexivity | reflexivity].
Qed.

(** X13: a range scan yields the commits its log iterator hands out before
    the first failure.  When the earlier stages succeed and the iterator
    [it] is created, [Filter] returns what the first advance returns, and
    after a nil return the row loop reads [leading_commits it] and ends as
    [closing_outcome it]. *)
Theorem X13_rows_of_range_scan (bd : bound) (cur : gitLogCursor) (p : string)
    (r : Repository) (from : Hash) (it : CommitIter) :
  hash bd = "" ->
  repo_path W bd = Ok p ->
  Locator_Open W p = Ok r ->
  start_point W r bd = Ok from ->
  mailmap_ready W r from ->
  Log W r (scan_options W from bd) = Ok it ->
  let '(o, cur', _) := Filter_bound W bd cur in
  o = advance_outcome it /\
  (o = Done tt ->
   scan (length it) cur' = Some (leading_commits it, closing_outcome it)).
Proof.
  intros Hh Hp Hr Hs Hready Hlog.
  rewrite (Filter_bound_scan_prefix W bd cur p r from Hh Hp Hr Hs).
  cbv zeta.
  destruct (load_mailmap_ready W r from
              (with_rev (refName bd) (with_repo r cur)) Hready)
    as (cur2 & tm & ->).
  unfold scan_outcome. rewrite Hlog. split; [reflexivity |].
  unfold advance_outcome, advance_commit.
  destruct it as [| [c | e] it];
    cbn [iter_next fst snd length leading_commits closing_outcome].
  - intros _. apply scan_exhausted. reflexivity.
  - intros _. apply (scan_rows it _ _ c); [lia | reflexivity | reflexivity].
  -
    destruct (eof e || is_ErrObjectNotFound e); [| discriminate].
    intros _. apply scan_exhausted. reflexivity.
Qed.

(** *** Projection *)

(** X14: [Column] panics exactly on a cursor for which [Eof] holds, that
    is, one without a current commit, and then for every column.  On a
    current commit it never panics; it sets no result (NULL) exactly for a
    column index outside 0..8, which includes the hidden columns 9 and 10,
    and an integer only for column 8. *)
Theorem X14_column_edges (R : CommitReader) (col : Z) (cur : gitLogCursor) :
  (Column R col cur = Panicked <-> Eof cur = true) /\
  (Eof cur = false ->
   (Column R col cur = Done NoResult <-> col < 0 \/ 8 < col) /\
   ((exists n, Column R col cur = Done (ResultInt n)) <-> col = 8)).
Proof.
  unfold Column, Eof. destruct (commit cur) as [c |].
  - split; [split; discriminate |]. intros _.
    repeat match goal with
           | |- context [Z.eqb col ?k] => destruct (Z.eqb_spec col k)
           end;
      split; split;
      first [ discriminate
            | solve [intros [? Hk]; discriminate Hk]
            | solve [intros [? | ?]; lia]
            | solve [intros; lia]
            | solve [intros; reflexivity]
            | solve [intros; eexists; reflexivity] ].
  - split; [split; reflexivity | discriminate].
Qed.

End CursorExtras.

(** ** The options *)

Section OptionFacts.

Context `{G : Git}.
Import tables.

(** X15: after [WithContextValue key value] the context is a map, never
    nil, in which [key] holds [value] and every other key holds what it held
    before (nothing, when the context was still nil); the locator and the
    extra-functions flag are not touched. *)
Theorem X15_context_value (key value : string) (o : Options) :
  (exists m : gmap string string,
      Context (WithContextValue key value o) = Some m /\
      m !! key = Some value /\
      forall k, k <> key ->
                m !! k = match Context o with
                         | Some m0 => m0 !! k
                         | None => None
                         end) /\
  Locator (WithContextValue key value o) = Locator o /\
  ExtraFunctions (WithContextValue key value o) = ExtraFunctions o.
Proof.
  unfold WithContextValue. cbn [Context Locator ExtraFunctions].
  split; [| split; reflexivity].
  eexists. split; [reflexivity |]. split.
  - apply lookup_insert_eq.
  - intros k Hk. rewrite lookup_insert_ne by congruence.
    destruct (Context o); [reflexivity | apply lookup_empty].
Qed.

(** X16: options compose as writes to a map do.  A second value for the
    same key replaces the first, values for different keys can be set in
    either order, and setting a context value commutes with switching the
    extra functions on and with choosing the locator. *)
Theorem X16_options_compose (k1 k2 v1 v2 : string)
    (loc : option RepoLocator) (o : Options) :
  WithContextValue k1 v2 (WithContextValue k1 v1 o) = WithContextValue k1 v2 o /\
  (k1 <> k2 ->
   WithContextValue k1 v1 (WithContextValue k2 v2 o) =
   WithContextValue k2 v2 (WithContextValue k1 v1 o)) /\
  WithExtraFunctions (WithContextValue k1 v1 o) =
    WithContextValue k1 v1 (WithExtraFunctions o) /\
  WithRepoLocator loc (WithContextValue k1 v1 o) =
    WithContextValue k1 v1 (WithRepoLocator loc o).
Proof.
  unfold WithContextValue, WithExtraFunctions, WithRepoLocator.
  cbn [Context Locator ExtraFunctions].
  split; [| split; [| split; reflexivity]].
  - rewrite insert_insert_eq. reflexivity.
  - intros Hne. rewrite insert_insert_ne by congruence. reflexivity.
Qed.

End OptionFacts.

(** ** The further properties at sample inputs *)

Example Column_sample :
  Column sample_reader 7 dangling_cursor = Done (ResultText "2021-01-01T00:00:00Z") /\
  Column sample_reader 9 dangling_cursor = Done NoResult /\
  Column sample_reader 0 new_cursor = Panicked.
Proof. repeat split; reflexivity. Qed.

Lemma X5_strategy_by_hash_witness :
  In (EvLookupIter "abc") (snd (Filter_bound sample_world hash_bound new_cursor)) /\
  In EvHead (snd (Filter_bound sample_world no_bound new_cursor)).
Proof.
  split.
  - apply (@X5_strategy_by_hash sample_git sample_world hash_bound new_cursor
             "/repo" "/repo" eq_refl eq_refl).
    discriminate.
  - apply (@X5_strategy_by_hash sample_git sample_world no_bound new_cursor
             "/repo" "/repo" eq_refl eq_refl).
    reflexivity.
Defined.

Lemma X7_start_point_witness :
  Forall (fun ev => match ev with EvHead => False | _ => True end)
    (snd (Filter_bound sample_world ref_bound new_cursor)).
Proof.
  apply (@X7_start_point sample_git sample_world ref_bound new_cursor
           "/repo" "/repo" eq_refl eq_refl eq_refl).
  discriminate.
Defined.

Lemma X10_iterator_installed_witness :
  exists it, commits (snd (fst (Filter sample_world "" [] new_cursor))) = Some it.
Proof.
  apply (@X10_iterator_installed sample_git sample_world "" [] new_cursor).
  reflexivity.
Defined.

Lemma X11_rows_of_scan_witness :
  scan 2 dangling_cursor = Some (["old"], Done tt).
Proof.
  apply (@X11_rows_of_scan sample_git 2 dangling_cursor
           [Err ErrObjectNotFound] "old");
    [cbn; lia | reflexivity | reflexivity].
Defined.

Lemma X12_rows_of_point_lookup_witness :
  scan 1 (snd (fst (Filter_bound sample_world hash_bound new_cursor))) =
  Some (["abc"], Done tt).
Proof.
  pose proof (@X12_rows_of_point_lookup sample_git sample_world hash_bound
                new_cursor "/repo" "/repo" ltac:(discriminate) eq_refl eq_refl)
    as H.
  destruct (Filter_bound sample_world hash_bound new_cursor) as [[o cur'] t].
  exact (proj2 H).
Defined.

Lemma X13_rows_of_range_scan_witness :
  scan 1 (snd (fst (Filter_bound sample_world no_bound new_cursor))) =
  Some (["HEAD"], Done tt).
Proof.
  assert (Hready : mailmap_ready sample_world ("/repo" : @Repository sample_git)
                     ("HEAD" : @Hash sample_git)).
  { right. exists "HEAD", "HEAD".
    split; [reflexivity |]. split; [reflexivity |]. left. reflexivity. }
  pose proof (@X13_rows_of_range_scan sample_git sample_world no_bound
                new_cursor "/repo" "/repo" "HEAD" [Ok "HEAD"]
                eq_refl eq_refl eq_refl eq_refl Hready eq_refl) as H.
  destruct (Filter_bound sample_world no_bound new_cursor) as [[o cur'] t].
  destruct H as [Ho Hrows]. apply Hrows. rewrite Ho. reflexivity.
Defined.
